(** * Wright-Fisher simulation loops of the population-genetics lectures

    A shallow embedding of the simulation cells of the notebooks
    [lecture-02.ipynb] (infinite-alleles mutation loop), [lecture-03.ipynb]
    ([evolve]) and [lecture-05.ipynb] (selective sweep with recombination,
    followed in the same file by the drift+selection replicate loop of
    lecture 04).

    Numbers.  The notebooks compute with IEEE doubles.  In the main
    development every finite number is an exact rational ([Q], compared
    with [==]): it describes the update rules that the cells round.  What it
    keeps of the floating-point layer is the behaviour the loops can
    observe without rounding: a numpy [float64] division by zero does not
    raise, it warns and yields [inf] or [nan] (outcome [NonFinite]),
    whereas a division of Python scalars by zero raises
    [ZeroDivisionError].  Where rounding decides what a cell does (a
    probability that leaves [[0, 1]], a loop that stops moving), the same
    expressions are evaluated in binary64 ([Binary64]), operation for
    operation.

    Randomness.  The notebooks call [rng.binomial] and [rng.multinomial] of
    [numpy.random], that is numpy's process-wide generator.  A cell that
    draws is embedded as a tree of draw requests ([rand]); the generator is
    the environment that answers them, and [yields] relates a program, the
    sequence of draws it received and the value it returned. *)

From Stdlib Require Import QArith Qround ZArith List Bool Lia Lqa Sorted.
From Stdlib Require Import Uint63 PrimFloat SpecFloat FloatOps.
Import ListNotations.

Local Open Scope Q_scope.

(** ** Outcomes of a cell *)

Inductive exn : Type :=
| ZeroDivisionError
| ValueError
| IndexError.

Inductive outcome (A : Type) : Type :=
| Value (a : A)        (* normal completion, every number finite *)
| NonFinite            (* normal completion, the result holds inf or nan *)
| Raises (e : exn).    (* a Python exception propagates *)

Arguments Value {A} a.
Arguments NonFinite {A}.
Arguments Raises {A} e.

(** [x / y] on numpy [float64] operands. *)
Definition np_truediv (x y : Q) : outcome Q :=
  if Qeq_bool y 0 then NonFinite else Value (x / y).

(** [x / y] on Python [int]/[float] operands. *)
Definition py_truediv (x y : Q) : outcome Q :=
  if Qeq_bool y 0 then Raises ZeroDivisionError else Value (x / y).

(** ** Lecture 05: selective sweep with recombination *)

Module Sweep.

(** The fitness values [w_AA], [w_AB], [w_BA], [w_BB] of the parameter cell. *)
Record fitness : Type := mk_fitness {
  w_AA : Q;
  w_AB : Q;
  w_BA : Q;
  w_BB : Q
}.

(** [w_BA = w_BB = 1 + s], [w_AA = w_AB = 1]. *)
Definition sweep_fitness (s : Q) : fitness :=
  {| w_AA := 1; w_AB := 1; w_BA := 1 + s; w_BB := 1 + s |}.

(** Entry [i] of the eight arrays [p_AA], ..., [p_2B]: the four genotype
    frequencies and the four stored allele frequencies. *)
Record state : Type := mk_state {
  p_AA : Q;
  p_AB : Q;
  p_BA : Q;
  p_BB : Q;
  p_1A : Q;
  p_1B : Q;
  p_2A : Q;
  p_2B : Q
}.

(** The initialisation [p_1A = p_AA + p_AB], ..., [p_2B = p_AB + p_BB]. *)
Definition init_state (AA AB BA BB : Q) : state :=
  {| p_AA := AA; p_AB := AB; p_BA := BA; p_BB := BB;
     p_1A := AA + AB;
     p_1B := BA + BB;
     p_2A := AA + BA;
     p_2B := AB + BB |}.

(** The parameter cell: [N = 2*1000], [n_BA = 1], [n_AA = N/2 - n_BA],
    [n_AB = N/2], [n_BB = 0], each divided by [N]. *)
Definition notebook_state : state :=
  let N := 2 * 1000 in
  let n_BA := 1 in
  let n_AA := N / 2 - n_BA in
  let n_AB := N / 2 in
  let n_BB := 0 in
  init_state (n_AA / N) (n_AB / N) (n_BA / N) (n_BB / N).

Definition w_bar (w : fitness) (st : state) : Q :=
  (w_AA w * p_AA st) + (w_AB w * p_AB st) + (w_BA w * p_BA st) + (w_BB w * p_BB st).

(** Body of the [while] loop: the new genotype frequencies, then the
    overwrite of the genotype and allele frequencies.  All four quotients
    have the denominator [w_bar]; when it is zero each of them is [inf] or
    [nan]. *)
Definition tick (w : fitness) (r : Q) (st : state) : outcome state :=
  let w_bar := w_bar w st in
  if Qeq_bool w_bar 0 then NonFinite
  else
    let new_p_AA := (1 - r) * w_AA w * p_AA st / w_bar + r * p_1A st * p_2A st in
    let new_p_AB := (1 - r) * w_AB w * p_AB st / w_bar + r * p_1A st * p_2B st in
    let new_p_BA := (1 - r) * w_BA w * p_BA st / w_bar + r * p_1B st * p_2A st in
    let new_p_BB := (1 - r) * w_BB w * p_BB st / w_bar + r * p_1B st * p_2B st in
    Value {| p_AA := new_p_AA;
             p_AB := new_p_AB;
             p_BA := new_p_BA;
             p_BB := new_p_BB;
             p_1A := new_p_AA + new_p_AB;
             p_1B := new_p_BA + new_p_BB;
             p_2A := new_p_AA + new_p_BA;
             p_2B := new_p_AB + new_p_BB |}.

(** [while p_1B[i] < p_end: ...], with [fuel] bounding the number of
    iterations that are unfolded: [None] means the loop is still running
    when the fuel is spent.  Once a tick has produced non-finite
    frequencies the loop leaves with a non-finite state (every later
    frequency is [nan], and [nan < p_end] is false). *)
Fixpoint while_loop (fuel : nat) (w : fitness) (r p_end : Q) (st : state)
  : option (outcome state) :=
  if Qlt_le_dec (p_1B st) p_end then
    match fuel with
    | O => None
    | S fuel' =>
        match tick w r st with
        | Value st' => while_loop fuel' w r p_end st'
        | NonFinite => Some NonFinite
        | Raises e => Some (Raises e)
        end
    end
  else Some (Value st).

(** [h[i] = p_2A[i] * p_2B[i] / h0], the scaled heterozygosity at site 2. *)
Definition scaled_h (h0 : Q) (st : state) : outcome Q :=
  np_truediv (p_2A st * p_2B st) h0.

(** A state as the loop sees it: frequencies that are non-negative and sum
    to one. *)
Definition genotype_sum (st : state) : Q :=
  p_AA st + p_AB st + p_BA st + p_BB st.

Definition nonneg (st : state) : Prop :=
  0 <= p_AA st /\ 0 <= p_AB st /\ 0 <= p_BA st /\ 0 <= p_BB st.

Definition nonneg_fitness (w : fitness) : Prop :=
  0 <= w_AA w /\ 0 <= w_AB w /\ 0 <= w_BA w /\ 0 <= w_BB w.

(** The stored allele frequencies agree with the genotype frequencies. *)
Definition consistent (st : state) : Prop :=
  p_1A st == p_AA st + p_AB st /\
  p_1B st == p_BA st + p_BB st /\
  p_2A st == p_AA st + p_BA st /\
  p_2B st == p_AB st + p_BB st.

End Sweep.

(** ** Lecture 03: [evolve] *)

Module Lecture03.

Section Evolve.

(** The cell reads [w_bar = FILL IN]: the expression for the average
    fitness is left to the student.  It is a parameter here, a function of
    the arguments [p] and [w] of [evolve]. *)
Variable fill_in : Q -> Q -> Q.

Definition evolve (p w : Q) : outcome Q :=
  let w_bar := fill_in p w in
  py_truediv (w * p) w_bar.

End Evolve.

End Lecture03.

(** ** Programs that draw from numpy's generator *)

Module Rng.

(** A cell that calls [rng.binomial] or [rng.multinomial]: it returns,
    raises, or asks for a draw and continues with the value drawn. *)
Inductive rand (A : Type) : Type :=
| Ret (a : A)
| Throw (e : exn)
| Binomial (n : Z) (p : Q) (k : Z -> rand A)
| Multinomial (n : Z) (pvals : list Q) (k : list Z -> rand A).

Arguments Ret {A} a.
Arguments Throw {A} e.
Arguments Binomial {A} n p k.
Arguments Multinomial {A} n pvals k.

Fixpoint bind {A B : Type} (c : rand A) (f : A -> rand B) : rand B :=
  match c with
  | Ret a => f a
  | Throw e => Throw e
  | Binomial n p k => Binomial n p (fun x => bind (k x) f)
  | Multinomial n pvals k => Multinomial n pvals (fun x => bind (k x) f)
  end.

Definition binomial (n : Z) (p : Q) : rand Z := Binomial n p Ret.

Definition multinomial (n : Z) (pvals : list Q) : rand (list Z) :=
  Multinomial n pvals Ret.

(** A [float64] that reaches a numpy sampler as an argument: [nan] and
    [inf] are rejected with [ValueError]. *)
Definition checked {A B : Type} (x : outcome A) (f : A -> rand B) : rand B :=
  match x with
  | Value a => f a
  | NonFinite => Throw ValueError
  | Raises e => Throw e
  end.

Definition Zsum (l : list Z) : Z := fold_right Z.add 0%Z l.

Definition Qsum (l : list Q) : Q := fold_right Qplus 0 l.

(** What follows describes numpy, not the notebooks: the argument checks
    of the two samplers and the values they can return.

    [rng.binomial(n, p)] raises [ValueError] when [n < 0], [p < 0] or
    [p > 1]. *)
Definition binomial_args (n : Z) (p : Q) : Prop :=
  (0 <= n)%Z /\ 0 <= p /\ p <= 1.

(** The values [rng.binomial(n, p)] returns with positive probability. *)
Definition binomial_support (n : Z) (p : Q) (k : Z) : Prop :=
  (0 <= k <= n)%Z /\ (p == 0 -> k = 0%Z) /\ (p == 1 -> k = n).

(** [rng.multinomial(n, pvals)] raises [ValueError] when [n < 0] or an
    entry of [pvals] is negative; the loop only passes vectors [c / sum],
    and among those the accepted ones are the non-negative ones, which sum
    to one.  The empty vector, which the loop passes only for an empty
    list of alleles, is left outside: neither a run nor an exception is
    stated for it. *)
Definition multinomial_args (n : Z) (pvals : list Q) : Prop :=
  (0 <= n)%Z /\ Forall (fun p => 0 <= p) pvals /\ Qsum pvals == 1.

(** The vectors [rng.multinomial(n, pvals)] returns with positive
    probability: one count per entry of [pvals], the counts sum to [n], and
    an entry of probability zero gets no count. *)
Definition multinomial_support (n : Z) (pvals : list Q) (m : list Z) : Prop :=
  length m = length pvals /\
  Forall (fun c => (0 <= c)%Z) m /\
  Zsum m = n /\
  Forall2 (fun p c => p == 0 -> c = 0%Z) pvals m.

(** One answered request. *)
Inductive draw : Type :=
| DrawBinomial (n : Z) (p : Q) (k : Z)
| DrawMultinomial (n : Z) (pvals : list Q) (m : list Z).

(** [yields c tr a]: the program [c] returns [a] when the generator
    answers its requests, in order, as recorded in [tr]. *)
Inductive yields {A : Type} : rand A -> list draw -> A -> Prop :=
| yields_ret a :
    yields (Ret a) [] a
| yields_binomial n p k f tr a :
    binomial_args n p ->
    binomial_support n p k ->
    yields (f k) tr a ->
    yields (Binomial n p f) (DrawBinomial n p k :: tr) a
| yields_multinomial n pvals m f tr a :
    multinomial_args n pvals ->
    multinomial_support n pvals m ->
    yields (f m) tr a ->
    yields (Multinomial n pvals f) (DrawMultinomial n pvals m :: tr) a.

(** [raises c tr e]: the program [c] ends with the exception [e] after the
    draws [tr]. *)
Inductive raises {A : Type} : rand A -> list draw -> exn -> Prop :=
| raises_throw e :
    raises (Throw e) [] e
| raises_binomial_args n p f :
    ~ binomial_args n p ->
    raises (Binomial n p f) [] ValueError
| raises_multinomial_args n pvals f :
    pvals <> [] ->
    ~ multinomial_args n pvals ->
    raises (Multinomial n pvals f) [] ValueError
| raises_binomial n p k f tr e :
    binomial_args n p ->
    binomial_support n p k ->
    raises (f k) tr e ->
    raises (Binomial n p f) (DrawBinomial n p k :: tr) e
| raises_multinomial n pvals m f tr e :
    multinomial_args n pvals ->
    multinomial_support n pvals m ->
    raises (f m) tr e ->
    raises (Multinomial n pvals f) (DrawMultinomial n pvals m :: tr) e.

End Rng.

Declare Scope rand_scope.
Delimit Scope rand_scope with rand.
Notation "x <- c ;; k" := (Rng.bind c (fun x => k))
  (at level 61, c at next level, right associativity) : rand_scope.

(** ** Lecture 04 (second notebook of [lecture-05.ipynb]): drift and selection *)

Module Drift.
Import Rng.
Local Open Scope rand_scope.

(** [p_A = n * (1 + s) / (n * (1 + s) + N - n)], on [float64] operands. *)
Definition p_A (N : Z) (s : Q) (n : Z) : outcome Q :=
  let n := inject_Z n in
  np_truediv (n * (1 + s)) (n * (1 + s) + inject_Z N - n).

(** [n_t[i][j+1] = rng.binomial(N, p_A)]. *)
Definition step (N : Z) (s : Q) (n : Z) : rand Z :=
  checked (p_A N s n) (fun p_A => binomial N p_A).

(** [for j in range(n_g-1)]: the entries [n_t[i][j+1]], in order. *)
Fixpoint generations (steps : nat) (N : Z) (s : Q) (n : Z) : rand (list Z) :=
  match steps with
  | O => Ret []
  | S steps' =>
      n' <- step N s n ;;
      rest <- generations steps' N s n' ;;
      Ret (n' :: rest)
  end.

(** One replicate: the row [n_t[i]] of length [n_g]; the assignment
    [n_t[i][0] = n_A] is out of range when [n_g = 0]. *)
Definition row (n_g : nat) (N : Z) (s : Q) (n_A : Z) : rand (list Z) :=
  match n_g with
  | O => Throw IndexError
  | S steps =>
      rest <- generations steps N s n_A ;;
      Ret (n_A :: rest)
  end.

(** [for i in range(n_r)]: the rows and the counter [n_lost], incremented
    when [n_t[i][-1] == 0]. *)
Fixpoint replicates (n_r n_g : nat) (N : Z) (s : Q) (n_A : Z) (n_lost : Z)
  : rand (list (list Z) * Z) :=
  match n_r with
  | O => Ret ([], n_lost)
  | S n_r' =>
      r <- row n_g N s n_A ;;
      let n_lost := if (last r 1 =? 0)%Z then (n_lost + 1)%Z else n_lost in
      rest <- replicates n_r' n_g N s n_A n_lost ;;
      Ret (r :: fst rest, snd rest)
  end.

End Drift.

(** ** Lecture 02: the infinite-alleles model *)

Module InfiniteAlleles.
Import Rng.
Local Open Scope rand_scope.

(** [np.array(alleles)/np.sum(alleles)]: an elementwise [float64]
    division; on an empty array nothing is divided. *)
Definition frequencies (alleles : list Z) : outcome (list Q) :=
  let total := inject_Z (Zsum alleles) in
  match alleles with
  | [] => Value []
  | _ :: _ =>
      if Qeq_bool total 0 then NonFinite
      else Value (map (fun c => inject_Z c / total) alleles)
  end.

(** [get_h]: the sum of the squared frequencies. *)
Definition get_h (alleles : list Z) : outcome Q :=
  match frequencies alleles with
  | Value p => Value (fold_left (fun h p_i => h + p_i ^ 2) p 0)
  | NonFinite => NonFinite
  | Raises e => Raises e
  end.

(** Body of the generation loop after the two recordings: the binomial
    number of mutations, the multinomial reproduction of the others, the
    appended new alleles, the removal of the alleles that disappeared. *)
Definition tick (N : Z) (u : Q) (allele_n : list Z) : rand (list Z) :=
  new_alleles <- binomial (2 * N) u ;;
  new_allele_n <- checked (frequencies allele_n)
                    (fun pvals => multinomial (2 * N - new_alleles) pvals) ;;
  let new_allele_n := new_allele_n ++ repeat 1%Z (Z.to_nat new_alleles) in
  Ret (filter (fun c => (0 <? c)%Z) new_allele_n).

(** The list the tick leaves for a binomial draw [k] and a multinomial
    draw [m] (the last two steps of the body). *)
Definition survivors (k : Z) (m : list Z) : list Z :=
  filter (fun c => (0 <? c)%Z) (m ++ repeat 1%Z (Z.to_nat k)).

(** [for i in range(n_g)]: the recorded [homozygosity[i]] and
    [num_alleles[i]], and the final [allele_n]. *)
Fixpoint simulate (n_g : nat) (N : Z) (u : Q) (allele_n : list Z)
  : rand (list (outcome Q * Z) * list Z) :=
  match n_g with
  | O => Ret ([], allele_n)
  | S n_g' =>
      let h := get_h allele_n in
      let n := Z.of_nat (length allele_n) in
      new_allele_n <- tick N u allele_n ;;
      rest <- simulate n_g' N u new_allele_n ;;
      Ret ((h, n) :: fst rest, snd rest)
  end.

(** A multinomial draw that puts every individual on the first allele
    (used to exhibit a run of the tick). *)
Definition all_on_first (n : Z) (allele_n : list Z) : list Z :=
  match allele_n with
  | [] => []
  | _ :: l => n :: repeat 0%Z (length l)
  end.

End InfiniteAlleles.

(** ** Lecture 05: the cells around the sweep loop *)

Module SweepRun.
Import Sweep.

(** The parameter cell and the first lines of the loop cell, for a
    population size [N] and a starting number [n_BA] of BA genotypes:
    [n_AA = N/2 - n_BA], [n_AB = N/2], [n_BB = 0], and the frequencies
    [n_G / N].  [N] and the counts are Python scalars, so [N = 0] raises. *)
Definition initial_state (N n_BA : Q) : outcome state :=
  let n_AA := N / 2 - n_BA in
  let n_AB := N / 2 in
  let n_BB := 0 in
  match py_truediv n_AA N with
  | Value AA =>
      match py_truediv n_AB N with
      | Value AB =>
          match py_truediv n_BA N with
          | Value BA =>
              match py_truediv n_BB N with
              | Value BB => Value (init_state AA AB BA BB)
              | NonFinite => NonFinite
              | Raises e => Raises e
              end
          | NonFinite => NonFinite
          | Raises e => Raises e
          end
      | NonFinite => NonFinite
      | Raises e => Raises e
      end
  | NonFinite => NonFinite
  | Raises e => Raises e
  end.

(** The plot cell mirrors the results around distance zero:
    [r_r = list(-np.array(list(r[1:][::-1]))) + list(r)] and
    [h_r = list(h[1:][::-1]) + list(h)]. *)
Definition reflect_r (r : list Q) : list Q :=
  map Qopp (rev (tl r)) ++ r.

Definition reflect_h {A : Type} (h : list A) : list A :=
  rev (tl h) ++ h.

End SweepRun.

(** ** Lecture 04: absorbing counts *)

Module DriftStates.
Import Rng Drift.

(** A count from which the draw can only return the same count. *)
Definition stays (N : Z) (s : Q) (n : Z) : Prop :=
  exists p,
    p_A N s n = Value p /\ binomial_args N p /\
    forall k, binomial_support N p k <-> k = n.

End DriftStates.

(** ** Lecture 03: the simulation cell *)

Module Lecture03Run.

Section Simulation.

Variable fill_in : Q -> Q -> Q.

(** [for i in range(steps): p = evolve(p, w); freq_sim.append(p/2)]: the
    appended entries; an exception of [evolve] ends the cell. *)
Fixpoint appended (steps : nat) (p w : Q) : outcome (list Q) :=
  match steps with
  | O => Value []
  | S steps' =>
      match Lecture03.evolve fill_in p w with
      | Value p' =>
          match appended steps' p' w with
          | Value l => Value (p' / 2 :: l)
          | NonFinite => NonFinite
          | Raises e => Raises e
          end
      | NonFinite => NonFinite
      | Raises e => Raises e
      end
  end.

(** [freq_sim = [p/2]] followed by the [len(year) - 1] appended entries
    ([range] of a negative number is empty). *)
Definition freq_sim (len_year : nat) (p w : Q) : outcome (list Q) :=
  match appended (len_year - 1) p w with
  | Value l => Value (p / 2 :: l)
  | NonFinite => NonFinite
  | Raises e => Raises e
  end.

End Simulation.

End Lecture03Run.

(** ** The cells in binary64 *)

Module Binary64.
Import Rng.

Local Open Scope float_scope.

(** A finite binary64 number as the rational it denotes; [inf] and [nan]
    are non-finite. *)
Definition to_Q (x : float) : outcome Q :=
  match Prim2SF x with
  | S754_zero _ => Value 0%Q
  | S754_finite sign m e =>
      let v := match e with
               | Z0 => inject_Z (Zpos m)
               | Zpos k => inject_Z (Zpos m * 2 ^ Zpos k)
               | Zneg k => (Zpos m # 2 ^ k)%Q
               end in
      Value (if sign then Qopp v else v)
  | S754_infinity _ => NonFinite
  | S754_nan => NonFinite
  end.

(** A count or a population size, an integer between [0] and [2^53], as
    the binary64 number the arithmetic converts it to. *)
Definition of_count (n : Z) : float := of_uint63 (Uint63.of_Z n).

(** [p_A = n * (1 + s) / (n * (1 + s) + N - n)] as the drift cell
    evaluates it: [n] is an entry of the [float64] matrix [n_t], [N] the
    population size converted to [float64]. *)
Definition p_A (N s n : float) : float :=
  n * (1 + s) / (n * (1 + s) + N - n).

(** [n_t[i][j+1] = rng.binomial(N, p_A)], the sampler receiving the
    number that [p_A] denotes. *)
Definition step (N : Z) (s : float) (n : Z) : rand Z :=
  checked (to_Q (p_A (of_count N) s (of_count n))) (fun p_A => binomial N p_A).



Record fitness : Type := mk_fitness {
  w_AA : float;
  w_AB : float;
  w_BA : float;
  w_BB : float
}.

(** [w_BA = w_BB = 1 + s], [w_AA = w_AB = 1]. *)
Definition sweep_fitness (s : float) : fitness :=
  {| w_AA := 1; w_AB := 1; w_BA := 1 + s; w_BB := 1 + s |}.

Record state : Type := mk_state {
  p_AA : float;
  p_AB : float;
  p_BA : float;
  p_BB : float;
  p_1A : float;
  p_1B : float;
  p_2A : float;
  p_2B : float
}.

Definition init_state (AA AB BA BB : float) : state :=
  {| p_AA := AA; p_AB := AB; p_BA := BA; p_BB := BB;
     p_1A := AA + AB;
     p_1B := BA + BB;
     p_2A := AA + BA;
     p_2B := AB + BB |}.

(** The initial frequencies for a population size [N] (not zero) and a
    starting number [n_BA]. *)
Definition initial_state (N n_BA : float) : state :=
  let n_AA := N / 2 - n_BA in
  let n_AB := N / 2 in
  let n_BB := 0 in
  init_state (n_AA / N) (n_AB / N) (n_BA / N) (n_BB / N).

Definition genotype_sum (st : state) : float :=
  p_AA st + p_AB st + p_BA st + p_BB st.

Definition w_bar (w : fitness) (st : state) : float :=
  (w_AA w * p_AA st) + (w_AB w * p_AB st) + (w_BA w * p_BA st) + (w_BB w * p_BB st).

(** Body of the [while] loop.  A division by zero needs no case here: it
    gives [inf] or [nan], as in numpy. *)
Definition tick (w : fitness) (r : float) (st : state) : state :=
  let w_bar := w_bar w st in
  let new_p_AA := (1 - r) * w_AA w * p_AA st / w_bar + r * p_1A st * p_2A st in
  let new_p_AB := (1 - r) * w_AB w * p_AB st / w_bar + r * p_1A st * p_2B st in
  let new_p_BA := (1 - r) * w_BA w * p_BA st / w_bar + r * p_1B st * p_2A st in
  let new_p_BB := (1 - r) * w_BB w * p_BB st / w_bar + r * p_1B st * p_2B st in
  {| p_AA := new_p_AA;
     p_AB := new_p_AB;
     p_BA := new_p_BA;
     p_BB := new_p_BB;
     p_1A := new_p_AA + new_p_AB;
     p_1B := new_p_BA + new_p_BB;
     p_2A := new_p_AA + new_p_BA;
     p_2B := new_p_AB + new_p_BB |}.

(** [while p_1B[i] < p_end: ...]; [None]: still running when the fuel is
    spent.  The comparison is false on [nan]. *)
Fixpoint while_loop (fuel : nat) (w : fitness) (r p_end : float) (st : state)
  : option state :=
  if p_1B st <? p_end then
    match fuel with
    | O => None
    | S fuel' => while_loop fuel' w r p_end (tick w r st)
    end
  else Some st.

(** [h[i] = p_2A[i] * p_2B[i] / h0]. *)
Definition scaled_h (h0 : float) (st : state) : float :=
  p_2A st * p_2B st / h0.

(** The literal [0.01] of the next line. *)
Definition percent : float := 1 / 100.

(** [r = np.arange(0, 0.5*s + 0.01*s, 0.01*s)].  The length of the array
    is the ceiling of the Python quotient [stop / step], which raises
    [ZeroDivisionError] for a zero step; numpy raises [ValueError] when
    the quotient is [nan] or its ceiling is not a machine integer.  Entry
    [i] is [0 + i * step]. *)
Definition recombination_values (s : float) : outcome (list float) :=
  let stop := 0.5 * s + percent * s in
  let step := percent * s in
  if step =? 0 then Raises ZeroDivisionError
  else
    match to_Q (stop / step) with
    | Value q =>
        let len := Qceiling q in
        if (2 ^ 63 <=? len)%Z then Raises ValueError
        else Value (map (fun i => 0 + of_count (Z.of_nat i) * step)
                      (seq 0 (Z.to_nat len)))
    | NonFinite => Raises ValueError
    | Raises e => Raises e
    end.

(** [for i in range(len(r))]: the [while] loop at [r[i]] from the initial
    entries, then [h[i]].  [None]: a [while] loop is still running when
    the fuel is spent. *)
Fixpoint points (fuel : nat) (w : fitness) (p_end h0 : float) (st0 : state)
    (rs : list float) : option (list float) :=
  match rs with
  | [] => Some []
  | r :: rs' =>
      match while_loop fuel w r p_end st0 with
      | None => None
      | Some st =>
          match points fuel w p_end h0 st0 rs' with
          | None => None
          | Some hs => Some (scaled_h h0 st :: hs)
          end
      end
  end.

(** The loop cell, for a selection coefficient [s], a threshold [p_end]
    and integers [N] and [n_BA] between [0] and [2^53]: the recombination
    values, the initial frequencies ([n_AA / N] raises for [N = 0]),
    [h0 = p_2A[0] * p_2B[0]] (out of range when [r] is empty), then the
    loop over [r]; the result is the array [h]. *)
Definition cell (fuel : nat) (s p_end : float) (N n_BA : Z)
  : option (outcome (list float)) :=
  match recombination_values s with
  | Value rs =>
      if (N =? 0)%Z then Some (Raises ZeroDivisionError)
      else
        let st0 := initial_state (of_count N) (of_count n_BA) in
        match rs with
        | [] => Some (Raises IndexError)
        | _ :: _ =>
            let h0 := p_2A st0 * p_2B st0 in
            match points fuel (sweep_fitness s) p_end h0 st0 rs with
            | None => None
            | Some hs => Some (Value hs)
            end
        end
  | NonFinite => Some NonFinite
  | Raises e => Some (Raises e)
  end.

(** Whether every entry is less than the next one. *)
Fixpoint ascending (l : list float) : bool :=
  match l with
  | x :: ((y :: _) as t) => (x <? y) && ascending t
  | _ => true
  end.

(** Whether the [while] loop ends within [fuel] ticks, each of which
    returns a greater [p_1B]. *)
Fixpoint climbs (fuel : nat) (w : fitness) (r p_end : float) (st : state)
  : bool :=
  if p_1B st <? p_end then
    match fuel with
    | O => false
    | S fuel' =>
        (p_1B st <? p_1B (tick w r st)) && climbs fuel' w r p_end (tick w r st)
    end
  else true.

(** The parameter cell of the sweep: [N = 2*1000], [n_BA = 1],
    [s = 0.01], [p_end = 0.999]; the selection coefficient of the drift
    cell is the same [0.01].  A decimal literal denotes the binary64
    number nearest to it, which is what the correctly rounded quotient of
    two exact integers gives: [0.01] is [0x1.47ae147ae147bp-7] and
    [0.999] is [0x1.ff7ced916872bp-1]. *)
Definition notebook_state : state := initial_state (2 * 1000) 1.

Definition notebook_s : float := 1 / 100.

Definition notebook_p_end : float := 999 / 1000.

(** Two other selection coefficients: [0.1], that is
    [0x1.999999999999ap-4], and [1e-17], that is
    [0x1.70ef54646d497p-57]. *)
Definition tenth : float := 1 / 10.

Definition tiny : float := 1 / 100000000000000000.

End Binary64.

(** * Properties *)

(** ** Divisions *)

Lemma np_truediv_value (x y : Q) :
  ~ y == 0 -> np_truediv x y = Value (x / y).
Proof.
  intros Hy. unfold np_truediv.
  destruct (Qeq_bool y 0) eqn:E; [|reflexivity].
  apply Qeq_bool_iff in E. contradiction.
Qed.

Lemma np_truediv_zero (x y : Q) :
  y == 0 -> np_truediv x y = NonFinite.
Proof.
  intros Hy. unfold np_truediv.
  apply Qeq_bool_iff in Hy. now rewrite Hy.
Qed.

Lemma py_truediv_value (x y : Q) :
  ~ y == 0 -> py_truediv x y = Value (x / y).
Proof.
  intros Hy. unfold py_truediv.
  destruct (Qeq_bool y 0) eqn:E; [|reflexivity].
  apply Qeq_bool_iff in E. contradiction.
Qed.

Lemma py_truediv_zero (x y : Q) :
  y == 0 -> py_truediv x y = Raises ZeroDivisionError.
Proof.
  intros Hy. unfold py_truediv.
  apply Qeq_bool_iff in Hy. now rewrite Hy.
Qed.

(** ** The sweep tick *)

Module SweepFacts.
Import Sweep.

(** The tick returns finite frequencies exactly when [w_bar] is not zero,
    and then they are the ones the loop body computes. *)
Lemma tick_finite (w : fitness) (r : Q) (st : state) :
  ~ w_bar w st == 0 ->
  exists st',
    tick w r st = Value st' /\
    p_AA st' = (1 - r) * w_AA w * p_AA st / w_bar w st + r * p_1A st * p_2A st /\
    p_AB st' = (1 - r) * w_AB w * p_AB st / w_bar w st + r * p_1A st * p_2B st /\
    p_BA st' = (1 - r) * w_BA w * p_BA st / w_bar w st + r * p_1B st * p_2A st /\
    p_BB st' = (1 - r) * w_BB w * p_BB st / w_bar w st + r * p_1B st * p_2B st /\
    p_1A st' = p_AA st' + p_AB st' /\
    p_1B st' = p_BA st' + p_BB st' /\
    p_2A st' = p_AA st' + p_BA st' /\
    p_2B st' = p_AB st' + p_BB st'.
Proof.
  intros Hw. unfold tick.
  destruct (Qeq_bool (w_bar w st) 0) eqn:E.
  - apply Qeq_bool_iff in E. contradiction.
  - eexists. split; [reflexivity|]. cbn. repeat split.
Qed.

Lemma tick_nonfinite (w : fitness) (r : Q) (st : state) :
  w_bar w st == 0 -> tick w r st = NonFinite.
Proof.
  intros Hw. unfold tick. apply Qeq_bool_iff in Hw. now rewrite Hw.
Qed.

Lemma tick_never_raises (w : fitness) (r : Q) (st : state) (e : exn) :
  tick w r st <> Raises e.
Proof.
  unfold tick. destruct (Qeq_bool (w_bar w st) 0); discriminate.
Qed.

Lemma init_state_consistent (AA AB BA BB : Q) :
  consistent (init_state AA AB BA BB).
Proof. unfold consistent; cbn. repeat split; reflexivity. Qed.

Lemma tick_consistent (w : fitness) (r : Q) (st st' : state) :
  tick w r st = Value st' -> consistent st'.
Proof.
  unfold tick. destruct (Qeq_bool (w_bar w st) 0); [discriminate|].
  intros H. injection H as <-. unfold consistent; cbn.
  repeat split; reflexivity.
Qed.

(** The four new genotype frequencies sum to
    [(1 - r) + r * (p_1A + p_1B) * (p_2A + p_2B)]. *)
Lemma tick_sum (w : fitness) (r : Q) (st st' : state) :
  tick w r st = Value st' ->
  genotype_sum st' ==
    (1 - r) + r * (p_1A st + p_1B st) * (p_2A st + p_2B st).
Proof.
  unfold tick. destruct (Qeq_bool (w_bar w st) 0) eqn:E; [discriminate|].
  apply Qeq_bool_neq in E.
  intros H. injection H as <-. unfold genotype_sum; cbn.
  unfold w_bar in *. field. exact E.
Qed.

Lemma consistent_marginals (st : state) :
  consistent st ->
  p_1A st + p_1B st == genotype_sum st /\
  p_2A st + p_2B st == genotype_sum st.
Proof.
  unfold consistent, genotype_sum. intros (H1 & H2 & H3 & H4).
  rewrite H1, H2, H3, H4. split; ring.
Qed.

Lemma tick_preserves_sum (w : fitness) (r : Q) (st st' : state) :
  consistent st -> genotype_sum st == 1 ->
  tick w r st = Value st' -> genotype_sum st' == 1.
Proof.
  intros Hc Hs Ht. rewrite (tick_sum _ _ _ _ Ht).
  destruct (consistent_marginals _ Hc) as [-> ->]. rewrite Hs. ring.
Qed.

(** The mean fitness is positive as soon as one genotype has positive
    frequency and positive fitness, the others being non-negative. *)
Lemma w_bar_positive (w : fitness) (st : state) :
  nonneg st -> nonneg_fitness w ->
  (0 < p_AA st /\ 0 < w_AA w) \/ (0 < p_AB st /\ 0 < w_AB w) \/
  (0 < p_BA st /\ 0 < w_BA w) \/ (0 < p_BB st /\ 0 < w_BB w) ->
  0 < w_bar w st.
Proof.
  intros (PAA & PAB & PBA & PBB) (WAA & WAB & WBA & WBB) H. unfold w_bar.
  pose proof (Qmult_le_0_compat _ _ WAA PAA).
  pose proof (Qmult_le_0_compat _ _ WAB PAB).
  pose proof (Qmult_le_0_compat _ _ WBA PBA).
  pose proof (Qmult_le_0_compat _ _ WBB PBB).
  destruct H as [[Hp Hw]|[[Hp Hw]|[[Hp Hw]|[Hp Hw]]]];
    pose proof (Qmult_lt_0_compat _ _ Hw Hp); lra.
Qed.

End SweepFacts.

Module SweepProgress.
Import Sweep SweepFacts.

(** With the sweep fitnesses the mean fitness is [1 + s * p_1B]. *)
Lemma sweep_w_bar (s : Q) (st : state) :
  consistent st -> genotype_sum st == 1 ->
  w_bar (sweep_fitness s) st == 1 + s * p_1B st.
Proof.
  unfold consistent, genotype_sum, w_bar. destruct st; cbn.
  intros (_ & H1B & _ & _) Hs. rewrite H1B. lra.
Qed.

(** The change of the frequency of the beneficial allele in one tick. *)
Lemma tick_p_1B (s r : Q) (st st' : state) :
  consistent st -> genotype_sum st == 1 ->
  tick (sweep_fitness s) r st = Value st' ->
  p_1B st' ==
    p_1B st + (1 - r) * s * p_1B st * (1 - p_1B st) / (1 + s * p_1B st).
Proof.
  intros Hc Hs Ht.
  pose proof (sweep_w_bar s st Hc Hs) as Hw.
  unfold tick in Ht.
  destruct (Qeq_bool (w_bar (sweep_fitness s) st) 0) eqn:E; [discriminate|].
  apply Qeq_bool_neq in E. injection Ht as <-.
  assert (Hd : ~ 1 + s * p_1B st == 0) by (rewrite <- Hw; exact E).
  revert Hw Hd. generalize (w_bar (sweep_fitness s) st). intros wb Hw Hd.
  destruct Hc as (H1A & H1B & H2A & H2B). unfold genotype_sum in Hs.
  destruct st as [AA AB BA BB x1A b x2A x2B]; cbn in *.
  rewrite Hw.
  assert (HBA : BA == b - BB) by lra.
  assert (HAA : AA == 1 - AB - b) by lra.
  rewrite H2A, H2B, HAA, HBA.
  field. exact Hd.
Qed.

End SweepProgress.

Module SweepLoop.
Import Sweep SweepFacts SweepProgress.

(** When the beneficial allele is absent it stays absent: the loop test
    [p_1B < p_end] holds again after the tick. *)
Lemma absent_stays_absent (s r : Q) (st st' : state) :
  consistent st -> genotype_sum st == 1 ->
  p_1B st == 0 ->
  tick (sweep_fitness s) r st = Value st' ->
  p_1B st' == 0.
Proof.
  intros Hc Hsum H0 Ht. rewrite (tick_p_1B s r st st' Hc Hsum Ht).
  rewrite H0. field; lra.
Qed.

Lemma absent_never_halts (s r p_end : Q) :
  0 < p_end ->
  forall (fuel : nat) (st : state),
    consistent st -> genotype_sum st == 1 -> p_1B st == 0 ->
    while_loop fuel (sweep_fitness s) r p_end st = None.
Proof.
  intros Hpe. induction fuel as [|fuel IH]; intros st Hc Hsum H0;
    cbn [while_loop];
    (destruct (Qlt_le_dec (p_1B st) p_end) as [Hlt|Hge]; [|lra]).
  - reflexivity.
  - assert (Hw : ~ w_bar (sweep_fitness s) st == 0).
    { rewrite (sweep_w_bar s st Hc Hsum), H0. lra. }
    destruct (tick_finite (sweep_fitness s) r st Hw) as (st1 & Ht & _).
    rewrite Ht. apply IH.
    + exact (tick_consistent _ _ _ _ Ht).
    + exact (tick_preserves_sum _ _ _ _ Hc Hsum Ht).
    + exact (absent_stays_absent s r st st1 Hc Hsum H0 Ht).
Qed.

(** More fuel does not change the result of a loop that has halted. *)
Lemma while_loop_more_fuel (w : fitness) (r p_end : Q) :
  forall (n m : nat) (st : state) (o : outcome state),
    (n <= m)%nat ->
    while_loop n w r p_end st = Some o ->
    while_loop m w r p_end st = Some o.
Proof.
  induction n as [|n IH]; intros m st o Hle; cbn [while_loop].
  - destruct (Qlt_le_dec (p_1B st) p_end) as [Hlt|Hge]; [discriminate|].
    intros H. destruct m; cbn [while_loop];
      (destruct (Qlt_le_dec (p_1B st) p_end); [lra | exact H]).
  - destruct m as [|m]; [lia|]. cbn [while_loop].
    destruct (Qlt_le_dec (p_1B st) p_end) as [Hlt|Hge]; [|auto].
    destruct (tick w r st); auto. apply IH. lia.
Qed.

(** The loop has one exit: a finished run ends at or above [p_end]. *)
Lemma while_loop_exit (w : fitness) (r p_end : Q) :
  forall (fuel : nat) (st st' : state),
    while_loop fuel w r p_end st = Some (Value st') ->
    p_end <= p_1B st'.
Proof.
  induction fuel as [|fuel IH]; intros st st'; cbn [while_loop];
    destruct (Qlt_le_dec (p_1B st) p_end) as [Hlt|Hge];
    try discriminate;
    try (intros H; injection H as <-; exact Hge).
  destruct (tick w r st) as [st1| |e]; try discriminate. apply IH.
Qed.

(** Every way the loop ends: at or above [p_end], or on non-finite
    frequencies. *)
Lemma while_loop_ends (w : fitness) (r p_end : Q) :
  forall (fuel : nat) (st : state) (o : outcome state),
    while_loop fuel w r p_end st = Some o ->
    (exists st', o = Value st' /\ p_end <= p_1B st') \/ o = NonFinite.
Proof.
  induction fuel as [|fuel IH]; intros st o; cbn [while_loop];
    destruct (Qlt_le_dec (p_1B st) p_end) as [Hlt|Hge];
    try discriminate;
    try (intros H; injection H as <-; left; exists st; split;
         [reflexivity | exact Hge]).
  destruct (tick w r st) as [st1| |e] eqn:Ht.
  - apply IH.
  - intros H. injection H as <-. right. reflexivity.
  - exfalso. exact (tick_never_raises w r st e Ht).
Qed.

(** At or above [p_end] the loop ends at once, whatever the fuel. *)
Lemma while_loop_at_threshold (w : fitness) (r p_end : Q) (fuel : nat)
    (st : state) :
  p_end <= p_1B st -> while_loop fuel w r p_end st = Some (Value st).
Proof.
  intros Hge. destruct fuel; cbn [while_loop];
    (destruct (Qlt_le_dec (p_1B st) p_end) as [Hlt|_]; [lra | reflexivity]).
Qed.

(** Below [p_end] the loop runs the tick and goes on from its result. *)
Lemma while_loop_below (w : fitness) (r p_end : Q) (fuel : nat)
    (st st' : state) :
  p_1B st < p_end -> tick w r st = Value st' ->
  while_loop (S fuel) w r p_end st = while_loop fuel w r p_end st'.
Proof.
  intros Hlt Ht. cbn [while_loop].
  destruct (Qlt_le_dec (p_1B st) p_end) as [_|Hge]; [|lra].
  now rewrite Ht.
Qed.

End SweepLoop.

(** ** Programs that draw *)

Module RngFacts.
Import Rng.

Lemma yields_ret_inv {A : Type} (a b : A) (tr : list draw) :
  yields (Ret a) tr b -> tr = [] /\ b = a.
Proof. intros H. inversion H; subst. split; reflexivity. Qed.

Lemma yields_throw_inv {A : Type} (e : exn) (tr : list draw) (a : A) :
  ~ yields (Throw e) tr a.
Proof. intros H. inversion H. Qed.

Lemma yields_binomial_inv {A : Type} n p (f : Z -> rand A) tr a :
  yields (Binomial n p f) tr a ->
  exists k tr',
    tr = DrawBinomial n p k :: tr' /\
    binomial_args n p /\ binomial_support n p k /\ yields (f k) tr' a.
Proof. intros H. inversion H; subst. eauto 6. Qed.

Lemma yields_multinomial_inv {A : Type} n pvals (f : list Z -> rand A) tr a :
  yields (Multinomial n pvals f) tr a ->
  exists m tr',
    tr = DrawMultinomial n pvals m :: tr' /\
    multinomial_args n pvals /\ multinomial_support n pvals m /\
    yields (f m) tr' a.
Proof. intros H. inversion H; subst. eauto 6. Qed.

(** A run of [x <- c ;; f x] is a run of [c] followed by a run of [f]. *)
Lemma yields_bind {A B : Type} (c : rand A) (f : A -> rand B) tr1 tr2 a b :
  yields c tr1 a -> yields (f a) tr2 b -> yields (bind c f) (tr1 ++ tr2) b.
Proof.
  induction 1; intros Hf; cbn.
  - exact Hf.
  - constructor; auto.
  - constructor; auto.
Qed.

Lemma yields_bind_inv {A B : Type} (c : rand A) (f : A -> rand B) tr b :
  yields (bind c f) tr b ->
  exists tr1 tr2 a,
    tr = tr1 ++ tr2 /\ yields c tr1 a /\ yields (f a) tr2 b.
Proof.
  revert tr. induction c as [a|e|n p k IH|n pvals k IH]; intros tr H; cbn in H.
  - exists [], tr, a. repeat split; [constructor | exact H].
  - now apply yields_throw_inv in H.
  - apply yields_binomial_inv in H as (x & tr' & -> & Ha & Hs & H).
    apply IH in H as (tr1 & tr2 & a & -> & H1 & H2).
    exists (DrawBinomial n p x :: tr1), tr2, a.
    repeat split; [constructor; assumption | exact H2].
  - apply yields_multinomial_inv in H as (x & tr' & -> & Ha & Hs & H).
    apply IH in H as (tr1 & tr2 & a & -> & H1 & H2).
    exists (DrawMultinomial n pvals x :: tr1), tr2, a.
    repeat split; [constructor; assumption | exact H2].
Qed.

Lemma raises_bind_l {A B : Type} (c : rand A) (f : A -> rand B) tr e :
  raises c tr e -> raises (bind c f) tr e.
Proof.
  induction 1; cbn.
  - apply raises_throw.
  - now apply raises_binomial_args.
  - now apply raises_multinomial_args.
  - now apply raises_binomial.
  - now apply raises_multinomial.
Qed.

Lemma raises_bind_r {A B : Type} (c : rand A) (f : A -> rand B)
    tr1 tr2 a e :
  yields c tr1 a -> raises (f a) tr2 e -> raises (bind c f) (tr1 ++ tr2) e.
Proof.
  induction 1; intros Hf; cbn.
  - exact Hf.
  - apply raises_binomial; auto.
  - apply raises_multinomial; auto.
Qed.

(** The value a program returns is determined by the draws it receives. *)
Lemma yields_deterministic {A : Type} (c : rand A) tr a b :
  yields c tr a -> yields c tr b -> a = b.
Proof.
  intros H. revert b. induction H; intros b Hb; inversion Hb; subst; auto.
Qed.

(** A program cannot both return and raise on the same draws. *)
Lemma yields_not_raises {A : Type} (c : rand A) tr a e :
  yields c tr a -> ~ raises c tr e.
Proof.
  intros H. induction H; intros Hr; inversion Hr; subst; auto.
Qed.

Lemma Zsum_app (l1 l2 : list Z) :
  Zsum (l1 ++ l2) = (Zsum l1 + Zsum l2)%Z.
Proof.
  unfold Zsum. induction l1 as [|x l1 IH]; cbn; [reflexivity | rewrite IH; lia].
Qed.

Lemma Zsum_repeat (x : Z) (k : nat) :
  Zsum (repeat x k) = (x * Z.of_nat k)%Z.
Proof.
  unfold Zsum. induction k as [|k IH]; cbn [repeat fold_right]; [lia|].
  rewrite IH. lia.
Qed.

(** Removing the zero entries of a list of counts keeps the total. *)
Lemma Zsum_filter_positive (l : list Z) :
  Forall (fun c => (0 <= c)%Z) l ->
  Zsum (filter (fun c => (0 <? c)%Z) l) = Zsum l.
Proof.
  unfold Zsum.
  induction 1 as [|x l Hx _ IH]; cbn [filter fold_right]; [reflexivity|].
  destruct (Z.ltb_spec 0 x); cbn [fold_right]; rewrite IH; lia.
Qed.

Lemma filter_positive_Forall (l : list Z) :
  Forall (fun c => (0 < c)%Z) (filter (fun c => (0 <? c)%Z) l).
Proof.
  apply Forall_forall. intros x Hx. apply filter_In in Hx as [_ Hx].
  now apply Z.ltb_lt.
Qed.

Lemma filter_all_positive (l : list Z) :
  Forall (fun c => (0 < c)%Z) l -> filter (fun c => (0 <? c)%Z) l = l.
Proof.
  induction 1 as [|x l Hx _ IH]; cbn; [reflexivity|].
  apply Z.ltb_lt in Hx. now rewrite Hx, IH.
Qed.

Lemma Forall_repeat {A : Type} (P : A -> Prop) (x : A) (k : nat) :
  P x -> Forall P (repeat x k).
Proof. intros Hx. induction k; cbn; constructor; auto. Qed.

End RngFacts.

(** ** The infinite-alleles tick *)

Module InfiniteAllelesFacts.
Import Rng RngFacts InfiniteAlleles.

Lemma frequencies_value (allele_n : list Z) :
  Zsum allele_n <> 0%Z ->
  frequencies allele_n =
    Value (map (fun c => inject_Z c / inject_Z (Zsum allele_n)) allele_n).
Proof.
  intros Hs. unfold frequencies. destruct allele_n as [|c l].
  - exfalso. apply Hs. reflexivity.
  - destruct (Qeq_bool (inject_Z (Zsum (c :: l))) 0) eqn:E; [|reflexivity].
    apply Qeq_bool_iff in E. change 0 with (inject_Z 0) in E.
    destruct (Hs (proj1 (inject_Z_injective _ _) E)).
Qed.

Lemma tick_unfold (N : Z) (u : Q) (allele_n : list Z) (pvals : list Q) :
  frequencies allele_n = Value pvals ->
  tick N u allele_n =
    Binomial (2 * N) u (fun k =>
      Multinomial (2 * N - k) pvals (fun m => Ret (survivors k m))).
Proof. intros H. unfold tick. rewrite H. reflexivity. Qed.

Lemma tick_unfold_nonfinite (N : Z) (u : Q) (allele_n : list Z) :
  frequencies allele_n = NonFinite ->
  tick N u allele_n = Binomial (2 * N) u (fun _ => Throw ValueError).
Proof. intros H. unfold tick. rewrite H. reflexivity. Qed.

Lemma frequencies_never_raises (allele_n : list Z) (e : exn) :
  frequencies allele_n <> Raises e.
Proof.
  unfold frequencies. destruct allele_n; [discriminate|].
  destruct (Qeq_bool _ _); discriminate.
Qed.

(** The runs of the tick: a binomial draw [k] with parameters [(2N, u)],
    then a multinomial draw [m] of [2N - k] individuals over [pvals]. *)
Lemma tick_yields_iff (N : Z) (u : Q) (allele_n : list Z) (pvals : list Q)
    (tr : list draw) (new_allele_n : list Z) :
  frequencies allele_n = Value pvals ->
  yields (tick N u allele_n) tr new_allele_n <->
  exists k m,
    binomial_args (2 * N) u /\ binomial_support (2 * N) u k /\
    multinomial_args (2 * N - k) pvals /\
    multinomial_support (2 * N - k) pvals m /\
    tr = [DrawBinomial (2 * N) u k; DrawMultinomial (2 * N - k) pvals m] /\
    new_allele_n = survivors k m.
Proof.
  intros Hf. rewrite (tick_unfold N u allele_n pvals Hf). split.
  - intros H.
    apply yields_binomial_inv in H as (k & tr1 & -> & Hba & Hbs & H).
    apply yields_multinomial_inv in H as (m & tr2 & -> & Hma & Hms & H).
    apply yields_ret_inv in H as [-> ->].
    exists k, m. repeat (split; [assumption|]). split; reflexivity.
  - intros (k & m & Hba & Hbs & Hma & Hms & -> & ->).
    apply yields_binomial; [assumption..|].
    apply yields_multinomial; [assumption..|].
    apply yields_ret.
Qed.

Lemma survivors_sum (n k : Z) (pvals : list Q) (m : list Z) :
  (0 <= k)%Z -> multinomial_support (n - k) pvals m ->
  Zsum (survivors k m) = n.
Proof.
  intros Hk (_ & Hpos & Hsum & _). unfold survivors.
  rewrite Zsum_filter_positive.
  - rewrite Zsum_app, Zsum_repeat, Hsum, Z2Nat.id by assumption. lia.
  - apply Forall_app. split; [assumption|]. apply Forall_repeat. lia.
Qed.

(** The new alleles come after the surviving old ones, one copy each. *)
Lemma survivors_app (k : Z) (m : list Z) :
  survivors k m =
    filter (fun c => (0 <? c)%Z) m ++ repeat 1%Z (Z.to_nat k).
Proof.
  unfold survivors. rewrite filter_app. f_equal.
  apply filter_all_positive. apply Forall_repeat. lia.
Qed.

Lemma Qsum_scaled (l : list Z) (t : Q) :
  ~ t == 0 ->
  Qsum (map (fun c => inject_Z c / t) l) == inject_Z (Zsum l) / t.
Proof.
  intros Ht. unfold Qsum, Zsum. induction l as [|c l IH]; cbn [map fold_right].
  - change (inject_Z 0) with 0. field. exact Ht.
  - rewrite IH, inject_Z_plus. field. exact Ht.
Qed.

(** The frequencies of a list of positive counts are accepted by
    [rng.multinomial]. *)
Lemma frequencies_args (n : Z) (allele_n : list Z) :
  (0 <= n)%Z ->
  Forall (fun c => (0 < c)%Z) allele_n -> (0 < Zsum allele_n)%Z ->
  multinomial_args n
    (map (fun c => inject_Z c / inject_Z (Zsum allele_n)) allele_n).
Proof.
  intros Hn Hpos Hsum.
  assert (Ht : 0 < inject_Z (Zsum allele_n)).
  { change 0 with (inject_Z 0). rewrite <- Zlt_Qlt. exact Hsum. }
  repeat split.
  - exact Hn.
  - apply Forall_map. eapply Forall_impl; [|exact Hpos]. cbn.
    intros c Hc. apply Qle_shift_div_l; [exact Ht|].
    setoid_replace (0 * inject_Z (Zsum allele_n)) with 0 by ring.
    change 0 with (inject_Z 0). rewrite <- Zle_Qle. lia.
  - rewrite Qsum_scaled by lra. field. lra.
Qed.

(** Whatever is drawn, the tick leaves positive counts that sum to [2N]. *)
Lemma tick_total (N : Z) (u : Q) (allele_n : list Z)
    (tr : list draw) (new_allele_n : list Z) :
  yields (tick N u allele_n) tr new_allele_n ->
  Zsum new_allele_n = (2 * N)%Z /\
  Forall (fun c => (0 < c)%Z) new_allele_n.
Proof.
  intros H. destruct (frequencies allele_n) as [pvals| |e] eqn:Hf.
  - destruct (proj1 (tick_yields_iff N u allele_n pvals tr new_allele_n Hf) H)
      as (k & m & _ & Hbs & _ & Hms & _ & Heq).
    rewrite Heq. split.
    + apply (survivors_sum (2 * N) k pvals m); [apply Hbs | exact Hms].
    + apply filter_positive_Forall.
  - rewrite (tick_unfold_nonfinite N u allele_n Hf) in H.
    apply yields_binomial_inv in H as (k & tr' & _ & _ & _ & H).
    now apply yields_throw_inv in H.
  - now apply frequencies_never_raises in Hf.
Qed.

Lemma all_on_first_support (n : Z) (allele_n : list Z) :
  (0 <= n)%Z ->
  Forall (fun c => (0 < c)%Z) allele_n -> (0 < Zsum allele_n)%Z ->
  multinomial_support n
    (map (fun c => inject_Z c / inject_Z (Zsum allele_n)) allele_n)
    (all_on_first n allele_n).
Proof.
  intros Hn Hpos Hsum.
  assert (Ht : 0 < inject_Z (Zsum allele_n)).
  { change 0 with (inject_Z 0). rewrite <- Zlt_Qlt. exact Hsum. }
  revert Ht. generalize (inject_Z (Zsum allele_n)). intros t Ht.
  destruct allele_n as [|c l]; [cbn in Hsum; lia|].
  unfold multinomial_support, all_on_first. cbn [map length].
  split; [|split; [|split]].
  - now rewrite length_map, repeat_length.
  - constructor; [exact Hn|]. apply Forall_repeat. lia.
  - change (Zsum (n :: repeat 0%Z (length l)))
      with (n + Zsum (repeat 0%Z (length l)))%Z.
    rewrite Zsum_repeat. lia.
  - constructor.
    + intros H0. exfalso. inversion Hpos as [|? ? Hc _]; subst.
      assert (Hcq : 0 < inject_Z c).
      { change 0 with (inject_Z 0). now rewrite <- Zlt_Qlt. }
      assert (Hq : 0 < inject_Z c / t).
      { apply Qlt_shift_div_l; [exact Ht|]. lra. }
      lra.
    + clear. induction l as [|c l IH]; cbn; constructor; auto.
Qed.

(** From positive counts that sum to [2N] the tick has a run. *)
Lemma tick_run (N : Z) (u : Q) (allele_n : list Z) :
  (0 < N)%Z -> 0 <= u -> u <= 1 ->
  Forall (fun c => (0 < c)%Z) allele_n ->
  Zsum allele_n = (2 * N)%Z ->
  exists tr new_allele_n, yields (tick N u allele_n) tr new_allele_n.
Proof.
  intros HN Hu0 Hu1 Hpos Hsum.
  assert (Hs : (0 < Zsum allele_n)%Z) by lia.
  assert (Hf := frequencies_value allele_n ltac:(lia)).
  set (pvals := map (fun c => inject_Z c / inject_Z (Zsum allele_n))
                  allele_n) in *.
  set (k := if Qeq_bool u 1 then (2 * N)%Z else 0%Z).
  assert (Hk : binomial_support (2 * N) u k).
  { unfold binomial_support, k. destruct (Qeq_bool u 1) eqn:E.
    - repeat split; try lia. intros H0. apply Qeq_bool_iff in E.
      rewrite H0 in E. discriminate.
    - apply Qeq_bool_neq in E. repeat split; try lia.
      intros H1. contradiction. }
  assert (Hk' : (0 <= 2 * N - k)%Z) by (destruct Hk as [? _]; lia).
  exists [DrawBinomial (2 * N) u k;
          DrawMultinomial (2 * N - k) pvals
            (all_on_first (2 * N - k) allele_n)],
         (survivors k (all_on_first (2 * N - k) allele_n)).
  apply (tick_yields_iff N u allele_n pvals _ _ Hf).
  exists k, (all_on_first (2 * N - k) allele_n).
  split; [repeat split; (lia || assumption)|]. split; [exact Hk|].
  split; [apply frequencies_args; assumption|].
  split; [apply all_on_first_support; assumption|].
  split; reflexivity.
Qed.

(** The loop records one entry per generation and makes two draws in
    each. *)
Lemma simulate_length (N : Z) (u : Q) :
  forall (n_g : nat) (allele_n : list Z) (tr : list draw)
         (res : list (outcome Q * Z) * list Z),
    yields (simulate n_g N u allele_n) tr res ->
    length (fst res) = n_g /\ length tr = (2 * n_g)%nat.
Proof.
  induction n_g as [|n_g IH]; intros allele_n tr res H;
    cbn [simulate] in H.
  - apply yields_ret_inv in H as [-> ->]. split; reflexivity.
  - apply yields_bind_inv in H as (tr1 & tr' & new & -> & Htick & H).
    apply yields_bind_inv in H as (tr2 & tr3 & rest & -> & Hrest & H).
    apply yields_ret_inv in H as [-> ->].
    apply IH in Hrest as [Hl Htr].
    assert (Htwo : length tr1 = 2%nat).
    { destruct (frequencies allele_n) as [pvals| |e] eqn:Hf.
      - destruct (proj1 (tick_yields_iff N u allele_n pvals tr1 new Hf) Htick)
          as (k & m & _ & _ & _ & _ & Heq & _).
        rewrite Heq. reflexivity.
      - rewrite (tick_unfold_nonfinite N u allele_n Hf) in Htick.
        apply yields_binomial_inv in Htick as (k & tr0 & _ & _ & _ & Hth).
        now apply yields_throw_inv in Hth.
      - now apply frequencies_never_raises in Hf. }
    rewrite !length_app, Htwo, Htr. cbn [fst length]. split; lia.
Qed.

(** From positive counts that sum to [2N] the loop has a run of any
    number of generations. *)
Lemma simulate_run (N : Z) (u : Q) :
  (0 < N)%Z -> 0 <= u -> u <= 1 ->
  forall (n_g : nat) (allele_n : list Z),
    Forall (fun c => (0 < c)%Z) allele_n ->
    Zsum allele_n = (2 * N)%Z ->
    exists tr res, yields (simulate n_g N u allele_n) tr res.
Proof.
  intros HN Hu0 Hu1. induction n_g as [|n_g IH]; intros allele_n Hpos Hsum;
    cbn [simulate].
  - exists [], ([], allele_n). constructor.
  - destruct (tick_run N u allele_n HN Hu0 Hu1 Hpos Hsum)
      as (tr1 & new & Htick).
    destruct (tick_total N u allele_n tr1 new Htick) as [Hsum' Hpos'].
    destruct (IH new Hpos' Hsum') as (tr2 & rest & Hrest).
    eexists. eexists.
    eapply yields_bind; [exact Htick|].
    eapply yields_bind; [exact Hrest|]. apply yields_ret.
Qed.

End InfiniteAllelesFacts.

(** ** The model on the notebooks' numbers *)

Module Runs.
Import Sweep.

(** First tick of the notebook's sweep at [r = 0]: the frequency of the
    beneficial allele goes from [1/2000] to [1.01/2000.01]. *)
Example notebook_first_tick :
  exists st',
    tick (sweep_fitness (1 # 100)) 0 notebook_state = Value st' /\
    p_1B st' == 101 # 200001 /\
    genotype_sum st' == 1.
Proof.
  eexists. split; [reflexivity|]. split; vm_compute; reflexivity.
Qed.

(** A short sweep: with [s = 1], [r = 0] and [p_end = 1/2] the loop started
    at [p_1B = 1/4] is still running after one tick and ends after two,
    at [p_1B = 4/7]. *)
Example short_sweep :
  while_loop 1 (sweep_fitness 1) 0 (1 # 2)
    (init_state (1 # 2) (1 # 4) (1 # 4) 0) = None /\
  exists st',
    while_loop 2 (sweep_fitness 1) 0 (1 # 2)
      (init_state (1 # 2) (1 # 4) (1 # 4) 0) = Some (Value st') /\
    p_1B st' == 4 # 7 /\ p_2A st' == 6 # 7.
Proof.
  split; [vm_compute; reflexivity|].
  eexists. split; [vm_compute; reflexivity|].
  split; vm_compute; reflexivity.
Qed.

(** Ten alleles of twenty copies each have homozygosity [1/10]. *)
Example homozygosity_ten_alleles :
  exists h,
    InfiniteAlleles.get_h (repeat 20%Z 10) = Value h /\
    h == 1 # 10.
Proof.
  eexists. split; [vm_compute; reflexivity|]. vm_compute; reflexivity.
Qed.

(** The first selection probability of the drift notebook:
    [1.01 / 100.01]. *)
Example notebook_p_A :
  exists p, Drift.p_A 100 (1 # 100) 1 = Value p /\ p == 101 # 10001.
Proof.
  eexists. split; [vm_compute; reflexivity|]. vm_compute; reflexivity.
Qed.

End Runs.

(** * The cells in binary64 *)

Module Binary64Facts.
Import Binary64.
Local Open Scope float_scope.

Lemma while_loop_S (fuel : nat) (w : fitness) (r p_end : float) (st : state) :
  while_loop (S fuel) w r p_end st =
  if p_1B st <? p_end then while_loop fuel w r p_end (tick w r st)
  else Some st.
Proof. reflexivity. Qed.

Lemma while_loop_O (w : fitness) (r p_end : float) (st : state) :
  while_loop O w r p_end st = if p_1B st <? p_end then None else Some st.
Proof. reflexivity. Qed.

Lemma literals :
  notebook_s = 0x1.47ae147ae147bp-7 /\
  notebook_p_end = 0x1.ff7ced916872bp-1 /\
  tenth = 0x1.999999999999ap-4 /\
  tiny = 0x1.70ef54646d497p-57.
Proof. repeat split; vm_compute; reflexivity. Qed.

(** The first entries of the arrays: [0.4995], [0.5], [0.0005], [0]. *)
Lemma notebook_state_value :
  notebook_state =
  {| p_AA := 0x1.ff7ced916872bp-2;
     p_AB := 0x1p-1;
     p_BA := 0x1.0624dd2f1a9fcp-11;
     p_BB := 0;
     p_1A := 0x1.ffbe76c8b4396p-1;
     p_1B := 0x1.0624dd2f1a9fcp-11;
     p_2A := 0x1p-1;
     p_2B := 0x1p-1 |}.
Proof. vm_compute. reflexivity. Qed.

(** [1 + 1e-17] is [1]: a tick with [s = 1e-17] and [r = 0] returns the
    first entries unchanged. *)
Lemma tiny_sum : 1 + tiny = 1.
Proof. vm_compute. reflexivity. Qed.

Lemma tiny_tick_fixed :
  tick (sweep_fitness tiny) 0 notebook_state = notebook_state.
Proof. vm_compute. reflexivity. Qed.

Lemma tiny_never_halts (fuel : nat) :
  while_loop fuel (sweep_fitness tiny) 0 notebook_p_end notebook_state = None.
Proof.
  assert (Hlt : (p_1B notebook_state <? notebook_p_end) = true)
    by (vm_compute; reflexivity).
  induction fuel as [|fuel IH].
  - rewrite while_loop_O, Hlt. reflexivity.
  - rewrite while_loop_S, Hlt, tiny_tick_fixed. exact IH.
Qed.

(** The loop of the notebook at [r[0] = 0]: 1458 ticks, each of which
    returns a greater [p_1B], and no fewer. *)
Lemma notebook_sweep_halts :
  exists st' : state,
    while_loop 1458 (sweep_fitness notebook_s) 0 notebook_p_end
      notebook_state = Some st' /\
    (p_1B st' <? notebook_p_end) = false /\
    (notebook_p_end <=? p_1B st') = true.
Proof.
  eexists. split; [vm_compute; reflexivity|].
  split; vm_compute; reflexivity.
Qed.

Lemma notebook_sweep_not_sooner :
  while_loop 1457 (sweep_fitness notebook_s) 0 notebook_p_end
    notebook_state = None.
Proof. vm_compute. reflexivity. Qed.

(** All the loops of the notebook, one for each of the 51 recombination
    values: each ends within 1466 ticks, and each of its ticks returns a
    greater [p_1B]. *)
Lemma notebook_sweeps_climb :
  exists rs : list float,
    recombination_values notebook_s = Value rs /\
    length rs = 51%nat /\
    forallb (fun r => climbs 1466 (sweep_fitness notebook_s) r
                        notebook_p_end notebook_state) rs = true.
Proof.
  eexists. split; [vm_compute; reflexivity|].
  split; vm_compute; reflexivity.
Qed.

End Binary64Facts.

(** * The selection and recombination modes *)

Module Selection.
Import Sweep SweepFacts SweepProgress SweepLoop.



(** C2 as stated does not hold: with fitnesses [1, 1, 2, 2], [r = 1/2] and
    all four genotypes at frequency [1/4], the new frequency of AA is
    [5/24], whereas the blend of the selection output [sel] with the
    allele frequencies recomputed from [sel] would be [1/6]. *)
Lemma recombination_uses_pre_selection_marginals :
  exists sel st',
    tick (sweep_fitness 1) 0 (init_state (1 # 4) (1 # 4) (1 # 4) (1 # 4))
      = Value sel /\
    tick (sweep_fitness 1) (1 # 2) (init_state (1 # 4) (1 # 4) (1 # 4) (1 # 4))
      = Value st' /\
    p_AA st' == 5 # 24 /\
    (1 - (1 # 2)) * p_AA sel + (1 # 2) * p_1A sel * p_2A sel == 1 # 6 /\
    ~ p_AA st' ==
      (1 - (1 # 2)) * p_AA sel + (1 # 2) * p_1A sel * p_2A sel.
Proof.
  eexists. eexists. split; [reflexivity|]. split; [reflexivity|].
  split; [vm_compute; reflexivity|]. split; [vm_compute; reflexivity|].
  vm_compute. discriminate.
Qed.

(** C2, amended.  One tick blends the selection output with the product of
    the allele frequencies of the two loci: the new frequency of
    [G = {g1, g2}] is [(1 - r) * sel(G) + r * p_1(g1) * p_2(g2)], where
    [sel] is the selection output (the tick with [r = 0]) and [p_1], [p_2]
    are the allele frequencies of the genotype frequencies at the start of
    the tick, before selection.  They are stored in [p_1A] ... [p_2B] and
    recomputed at the end of every tick from the new genotype
    frequencies. *)
Theorem tick_blends_selection_and_recombination
    (w : fitness) (r : Q) (st : state) :
  consistent st ->
  ~ w_bar w st == 0 ->
  exists sel st',
    tick w 0 st = Value sel /\
    tick w r st = Value st' /\
    p_AA st' == (1 - r) * p_AA sel + r * (p_AA st + p_AB st) * (p_AA st + p_BA st) /\
    p_AB st' == (1 - r) * p_AB sel + r * (p_AA st + p_AB st) * (p_AB st + p_BB st) /\
    p_BA st' == (1 - r) * p_BA sel + r * (p_BA st + p_BB st) * (p_AA st + p_BA st) /\
    p_BB st' == (1 - r) * p_BB sel + r * (p_BA st + p_BB st) * (p_AB st + p_BB st) /\
    p_1A st' == p_AA st' + p_AB st' /\
    p_1B st' == p_BA st' + p_BB st' /\
    p_2A st' == p_AA st' + p_BA st' /\
    p_2B st' == p_AB st' + p_BB st'.
Proof.
  intros (H1A & H1B & H2A & H2B) Hw.
  destruct (tick_finite w 0 st Hw)
    as (sel & Hsel & SAA & SAB & SBA & SBB & _).
  destruct (tick_finite w r st Hw)
    as (st' & Ht & HAA & HAB & HBA & HBB & T1A & T1B & T2A & T2B).
  exists sel, st'. split; [exact Hsel|]. split; [exact Ht|].
  rewrite T1A, T1B, T2A, T2B, HAA, HAB, HBA, HBB, SAA, SAB, SBA, SBB.
  rewrite H1A, H1B, H2A, H2B.
  repeat split; try reflexivity; field; exact Hw.
Qed.

Lemma tick_blends_selection_and_recombination_witness :
  consistent notebook_state /\
  ~ w_bar (sweep_fitness (1 # 100)) notebook_state == 0 /\
  exists sel st',
    tick (sweep_fitness (1 # 100)) 0 notebook_state = Value sel /\
    tick (sweep_fitness (1 # 100)) (1 # 200) notebook_state = Value st' /\
    p_AA st' == (1 - (1 # 200)) * p_AA sel
                + (1 # 200) * (p_AA notebook_state + p_AB notebook_state)
                            * (p_AA notebook_state + p_BA notebook_state).
Proof.
  assert (Hc : consistent notebook_state) by apply init_state_consistent.
  assert (Hw : ~ w_bar (sweep_fitness (1 # 100)) notebook_state == 0)
    by (vm_compute; discriminate).
  split; [exact Hc|]. split; [exact Hw|].
  destruct (tick_blends_selection_and_recombination
              (sweep_fitness (1 # 100)) (1 # 200) notebook_state Hc Hw)
    as (sel & st' & Hsel & Ht & HAA & _).
  exists sel, st'. split; [exact Hsel|]. split; [exact Ht|]. exact HAA.
Defined.



(** C10 as stated does not hold of the binary64 update.  With
    [s = 1e-17 > 0] and [r = 0], from the first entries of the notebook
    (non-negative, summing to [1], [0 < p_1B < 1]) the fitness [1 + s] is
    [1], the tick returns every frequency unchanged, and the new [p_1B] is
    not greater than the old one. *)
Lemma tiny_coefficient_no_progress :
  (0 <? Binary64.tiny)%float = true /\
  (0 <=? Binary64.p_AA Binary64.notebook_state)%float = true /\
  (0 <=? Binary64.p_AB Binary64.notebook_state)%float = true /\
  (0 <=? Binary64.p_BA Binary64.notebook_state)%float = true /\
  (0 <=? Binary64.p_BB Binary64.notebook_state)%float = true /\
  Binary64.genotype_sum Binary64.notebook_state = 1%float /\
  (0 <? Binary64.p_1B Binary64.notebook_state)%float = true /\
  (Binary64.p_1B Binary64.notebook_state <? 1)%float = true /\
  Binary64.tick (Binary64.sweep_fitness Binary64.tiny) 0
    Binary64.notebook_state = Binary64.notebook_state /\
  (Binary64.p_1B Binary64.notebook_state <?
   Binary64.p_1B (Binary64.tick (Binary64.sweep_fitness Binary64.tiny) 0
                    Binary64.notebook_state))%float = false.
Proof.
  repeat split; vm_compute; reflexivity.
Qed.

(** C10, amended.  In exact arithmetic the sweep makes strict progress:
    with fitnesses [1 + s] for the genotypes BA and BB and [1] for AA and
    AB, [s > 0] and [0 <= r < 1], from a state of the loop whose
    frequencies sum to [1] and whose beneficial-allele frequency satisfies
    [0 < p_1B < 1], one tick returns a state whose [p_1B] is greater by
    exactly [(1 - r) * s * p_1B * (1 - p_1B) / (1 + s * p_1B)], and the
    loop [while p_1B < p_end] either ends with that state or goes on from
    it.  The binary64 update rounds this gain: with the parameters of the
    notebook ([s = 0.01], [p_end = 0.999], [N = 2*1000], [n_BA = 1]) the
    loop ends within 1466 ticks for each of the 51 recombination values,
    and every one of its ticks returns a greater [p_1B]. *)
Theorem sweep_strict_progress :
  (forall (s r : Q) (st : state),
     consistent st ->
     genotype_sum st == 1 ->
     0 < s -> 0 <= r -> r < 1 ->
     0 < p_1B st -> p_1B st < 1 ->
     exists st',
       tick (sweep_fitness s) r st = Value st' /\
       p_1B st' ==
         p_1B st + (1 - r) * s * p_1B st * (1 - p_1B st) / (1 + s * p_1B st) /\
       p_1B st < p_1B st' /\
       forall (p_end : Q) (fuel : nat),
         p_1B st < p_end ->
         (p_end <= p_1B st' ->
          while_loop (S fuel) (sweep_fitness s) r p_end st = Some (Value st')) /\
         (p_1B st' < p_end ->
          while_loop (S fuel) (sweep_fitness s) r p_end st =
          while_loop fuel (sweep_fitness s) r p_end st')) /\
  (exists rs : list float,
     Binary64.recombination_values Binary64.notebook_s = Value rs /\
     length rs = 51%nat /\
     forallb
       (fun r =>
          Binary64.climbs 1466 (Binary64.sweep_fitness Binary64.notebook_s) r
            Binary64.notebook_p_end Binary64.notebook_state) rs = true).
Proof.
  split.
  - intros s r st Hc Hsum Hs Hr0 Hr Hb0 Hb1.
    assert (Hsb : 0 < s * p_1B st) by (apply Qmult_lt_0_compat; assumption).
    assert (Hw : ~ w_bar (sweep_fitness s) st == 0).
    { rewrite (sweep_w_bar s st Hc Hsum). lra. }
    destruct (tick_finite (sweep_fitness s) r st Hw) as (st' & Ht & _).
    pose proof (tick_p_1B s r st st' Hc Hsum Ht) as Hp.
    exists st'. split; [exact Ht|]. split; [exact Hp|]. split.
    + rewrite Hp.
      assert (Hgain : 0 < (1 - r) * s * p_1B st * (1 - p_1B st)
                          / (1 + s * p_1B st)).
      { unfold Qdiv. repeat apply Qmult_lt_0_compat; try lra.
        apply Qinv_lt_0_compat. lra. }
      lra.
    + intros p_end fuel Hlt. split.
      * intros Hend.
        rewrite (while_loop_below _ _ _ fuel st st' Hlt Ht).
        apply while_loop_at_threshold. exact Hend.
      * intros _. exact (while_loop_below _ _ _ fuel st st' Hlt Ht).
  - exact Binary64Facts.notebook_sweeps_climb.
Qed.

Lemma sweep_strict_progress_witness :
  exists st',
    tick (sweep_fitness (1 # 100)) (1 # 200) notebook_state = Value st' /\
    p_1B st' ==
      p_1B notebook_state
      + (1 - (1 # 200)) * (1 # 100) * p_1B notebook_state
        * (1 - p_1B notebook_state) / (1 + (1 # 100) * p_1B notebook_state) /\
    p_1B notebook_state < p_1B st' /\
    while_loop 1 (sweep_fitness (1 # 100)) (1 # 200) (999 # 1000)
      notebook_state =
    while_loop 0 (sweep_fitness (1 # 100)) (1 # 200) (999 # 1000) st'.
Proof.
  destruct (proj1 sweep_strict_progress (1 # 100) (1 # 200) notebook_state)
    as (st' & Ht & Hp & Hlt & Hloop).
  - apply init_state_consistent.
  - vm_compute; reflexivity.
  - reflexivity.
  - vm_compute; discriminate.
  - reflexivity.
  - vm_compute; reflexivity.
  - vm_compute; reflexivity.
  - exists st'. split; [exact Ht|]. split; [exact Hp|]. split; [exact Hlt|].
    apply (Hloop (999 # 1000) 0%nat); [vm_compute; reflexivity|].
    rewrite Hp. vm_compute. reflexivity.
Defined.

(** C6 as stated does not hold: with [s = -1] and only the genotypes BA
    and BB present, every genotype with positive frequency has fitness
    zero and the mean fitness is zero, yet the tick raises nothing: its
    numpy division returns non-finite frequencies. *)
Lemma zero_mean_fitness_raises_nothing :
  w_bar (sweep_fitness (-1 # 1)) (init_state 0 0 (1 # 2) (1 # 2)) == 0 /\
  tick (sweep_fitness (-1 # 1)) 0 (init_state 0 0 (1 # 2) (1 # 2))
    = NonFinite /\
  forall e : exn,
    tick (sweep_fitness (-1 # 1)) 0 (init_state 0 0 (1 # 2) (1 # 2))
      <> Raises e.
Proof.
  split; [vm_compute; reflexivity|]. split; [reflexivity|].
  intros e. discriminate.
Qed.

(** C6, amended.  The selection step of the sweep tick has no error
    branch: it raises for no input; it returns non-finite frequencies
    exactly when the mean fitness is zero and finite ones otherwise.
    [evolve], which divides Python scalars, raises [ZeroDivisionError]
    exactly when its [w_bar] is zero.  When the frequencies and the
    fitnesses are non-negative and one genotype with positive frequency
    has positive fitness, the mean fitness is positive and the tick
    returns finite frequencies. *)
Theorem selection_division (w : fitness) (r : Q) (st : state) :
  (forall e : exn, tick w r st <> Raises e) /\
  (tick w r st = NonFinite <-> w_bar w st == 0) /\
  (~ w_bar w st == 0 -> exists st', tick w r st = Value st') /\
  (forall (fill_in : Q -> Q -> Q) (p w' : Q),
     Lecture03.evolve fill_in p w' = Raises ZeroDivisionError <->
     fill_in p w' == 0) /\
  (nonneg st -> nonneg_fitness w ->
   (0 < p_AA st /\ 0 < w_AA w) \/ (0 < p_AB st /\ 0 < w_AB w) \/
   (0 < p_BA st /\ 0 < w_BA w) \/ (0 < p_BB st /\ 0 < w_BB w) ->
   0 < w_bar w st /\ exists st', tick w r st = Value st').
Proof.
  split; [|split; [|split; [|split]]].
  - intros e. apply tick_never_raises.
  - split.
    + intros H. destruct (Qeq_dec (w_bar w st) 0) as [Hz|Hn]; [exact Hz|].
      destruct (tick_finite w r st Hn) as (st' & Ht & _). congruence.
    + apply tick_nonfinite.
  - intros Hn. destruct (tick_finite w r st Hn) as (st' & Ht & _). eauto.
  - intros fill_in p w'. unfold Lecture03.evolve. split.
    + intros H. destruct (Qeq_dec (fill_in p w') 0) as [Hz|Hn]; [exact Hz|].
      rewrite (py_truediv_value _ _ Hn) in H. discriminate.
    + apply py_truediv_zero.
  - intros Hp Hf Hsome.
    pose proof (w_bar_positive w st Hp Hf Hsome) as Hw.
    split; [exact Hw|].
    assert (Hn : ~ w_bar w st == 0) by lra.
    destruct (tick_finite w r st Hn) as (st' & Ht & _). eauto.
Qed.

Lemma selection_division_witness :
  nonneg notebook_state /\
  nonneg_fitness (sweep_fitness (1 # 100)) /\
  0 < p_BA notebook_state /\ 0 < w_BA (sweep_fitness (1 # 100)) /\
  0 < w_bar (sweep_fitness (1 # 100)) notebook_state /\
  exists st',
    tick (sweep_fitness (1 # 100)) (1 # 200) notebook_state = Value st'.
Proof.
  assert (Hp : nonneg notebook_state)
    by (repeat split; vm_compute; discriminate).
  assert (Hf : nonneg_fitness (sweep_fitness (1 # 100)))
    by (repeat split; vm_compute; discriminate).
  assert (HBA : 0 < p_BA notebook_state) by (vm_compute; reflexivity).
  assert (HwBA : 0 < w_BA (sweep_fitness (1 # 100)))
    by (vm_compute; reflexivity).
  split; [exact Hp|]. split; [exact Hf|]. split; [exact HBA|].
  split; [exact HwBA|].
  apply (proj2 (proj2 (proj2 (proj2
    (selection_division (sweep_fitness (1 # 100)) (1 # 200) notebook_state))))
    Hp Hf).
  right. right. left. split; assumption.
Defined.

End Selection.

(** * The drift mode *)

Module DriftFacts.
Import Rng RngFacts Drift.

Lemma step_value (N : Z) (s : Q) (n : Z) (p : Q) :
  p_A N s n = Value p -> step N s n = binomial N p.
Proof. intros H. unfold step. now rewrite H. Qed.

(** Every run of [generations] makes one draw per generation. *)
Lemma generations_length (N : Z) (s : Q) :
  forall (steps : nat) (n : Z) (tr : list draw) (l : list Z),
    yields (generations steps N s n) tr l ->
    length l = steps /\ length tr = steps.
Proof.
  induction steps as [|steps IH]; intros n tr l H; cbn [generations] in H.
  - apply yields_ret_inv in H as [-> ->]. split; reflexivity.
  - apply yields_bind_inv in H as (tr1 & tr' & n' & -> & Hstep & H).
    apply yields_bind_inv in H as (tr2 & tr3 & rest & -> & Hrest & H).
    apply yields_ret_inv in H as [-> ->].
    apply IH in Hrest as [Hl Htr].
    assert (Hone : length tr1 = 1%nat).
    { unfold step, checked in Hstep.
      destruct (p_A N s n) as [p| |e];
        [|now apply yields_throw_inv in Hstep
         |now apply yields_throw_inv in Hstep].
      apply yields_binomial_inv in Hstep as (k & tr0 & -> & _ & _ & Hret).
      apply yields_ret_inv in Hret as [-> _]. reflexivity. }
    rewrite !length_app, Hone, Htr. cbn [length]. split; lia.
Qed.

(** A draw that every binomial distribution allows. *)
Lemma binomial_support_inhabited (N : Z) (p : Q) :
  (0 <= N)%Z ->
  binomial_support N p (if Qeq_bool p 1 then N else 0%Z).
Proof.
  intros HN. unfold binomial_support.
  destruct (Qeq_bool p 1) eqn:E.
  - repeat split; try lia. intros H0. apply Qeq_bool_iff in E.
    rewrite H0 in E. discriminate.
  - apply Qeq_bool_neq in E. repeat split; try lia. intros H1. contradiction.
Qed.

(** The sampler's check of its arguments can be decided. *)
Lemma binomial_args_dec (N : Z) (p : Q) :
  {binomial_args N p} + {~ binomial_args N p}.
Proof.
  unfold binomial_args.
  destruct (Z_le_dec 0 N) as [HN|HN]; [|right; tauto].
  destruct (Qlt_le_dec p 0) as [Hp0|Hp0]; [right; intros (_ & H & _); lra|].
  destruct (Qlt_le_dec 1 p) as [Hp1|Hp1]; [right; intros (_ & _ & H); lra|].
  left. tauto.
Qed.

(** The [for] loop over the generations always ends: with the counts of
    all its generations, or with the [ValueError] of the sampler. *)
Lemma generations_ends (N : Z) (s : Q) :
  forall (steps : nat) (n : Z),
    exists tr : list draw,
      (exists l, yields (generations steps N s n) tr l) \/
      raises (generations steps N s n) tr ValueError.
Proof.
  induction steps as [|steps IH]; intros n; cbn [generations].
  - exists []. left. exists []. constructor.
  - unfold step, checked, p_A, np_truediv.
    destruct (Qeq_bool _ 0).
    + exists []. right. cbn. apply raises_throw.
    + set (p := _ / _).
      destruct (binomial_args_dec N p) as [Ha|Ha].
      * set (k := if Qeq_bool p 1 then N else 0%Z).
        assert (Hk : binomial_support N p k)
          by (apply binomial_support_inhabited; apply Ha).
        assert (Hstep : yields (binomial N p) [DrawBinomial N p k] k).
        { apply yields_binomial; [exact Ha|exact Hk|]. apply yields_ret. }
        destruct (IH k) as (tr & [(l & Hrun)|Hrun]).
        -- exists ([DrawBinomial N p k] ++ tr ++ []). left. exists (k :: l).
           eapply yields_bind; [exact Hstep|].
           eapply yields_bind; [exact Hrun|]. apply yields_ret.
        -- exists ([DrawBinomial N p k] ++ tr). right.
           eapply raises_bind_r; [exact Hstep|].
           apply raises_bind_l. exact Hrun.
      * exists []. right. cbn. apply raises_binomial_args. exact Ha.
Qed.

End DriftFacts.

(** * The infinite-alleles mode *)

Module Mutation.
Import Rng RngFacts InfiniteAlleles InfiniteAllelesFacts.

(** C4.  Count conservation: from a count list of positive entries that
    sum to [2N], with [N > 0] and [0 <= u <= 1], the mutation tick has a
    run, and whatever the binomial and the multinomial draws return, the
    list it leaves sums to exactly [2N] (and holds positive counts only). *)
Theorem mutation_tick_conserves_count (N : Z) (u : Q) (allele_n : list Z) :
  (0 < N)%Z -> 0 <= u -> u <= 1 ->
  Forall (fun c => (0 < c)%Z) allele_n ->
  Zsum allele_n = (2 * N)%Z ->
  (exists tr new_allele_n, yields (tick N u allele_n) tr new_allele_n) /\
  (forall tr new_allele_n,
     yields (tick N u allele_n) tr new_allele_n ->
     Zsum new_allele_n = (2 * N)%Z /\
     Forall (fun c => (0 < c)%Z) new_allele_n).
Proof.
  intros HN Hu0 Hu1 Hpos Hsum. split.
  - exact (tick_run N u allele_n HN Hu0 Hu1 Hpos Hsum).
  - intros tr new_allele_n. apply tick_total.
Qed.

Lemma mutation_tick_conserves_count_witness :
  (exists tr new_allele_n,
     yields (tick 100 (5 # 100) (repeat 20%Z 10)) tr new_allele_n) /\
  (forall tr new_allele_n,
     yields (tick 100 (5 # 100) (repeat 20%Z 10)) tr new_allele_n ->
     Zsum new_allele_n = (2 * 100)%Z /\
     Forall (fun c => (0 < c)%Z) new_allele_n).
Proof.
  apply (mutation_tick_conserves_count 100 (5 # 100) (repeat 20%Z 10)).
  - reflexivity.
  - vm_compute; discriminate.
  - vm_compute; discriminate.
  - vm_compute. repeat constructor.
  - reflexivity.
Defined.

(** C5.  The steps of the mutation tick and their order.  A run of the
    tick on a count list of non-zero total consists of exactly two draws:
    first a binomial draw [k] with parameters [(2N, u)], then a
    multinomial draw [m] of [2N - k] individuals weighted by the current
    allele frequencies [c / sum]; the list left is [m] with [k] entries
    [1] appended and the zero entries removed, that is the positive
    entries of [m] followed by the [k] new entries, and it holds no zero. *)
Theorem mutation_tick_steps (N : Z) (u : Q) (allele_n : list Z)
    (tr : list draw) (new_allele_n : list Z) :
  Zsum allele_n <> 0%Z ->
  yields (tick N u allele_n) tr new_allele_n <->
  exists (k : Z) (m : list Z),
    let pvals :=
      map (fun c => inject_Z c / inject_Z (Zsum allele_n)) allele_n in
    binomial_args (2 * N) u /\ binomial_support (2 * N) u k /\
    multinomial_args (2 * N - k) pvals /\
    multinomial_support (2 * N - k) pvals m /\
    tr = [DrawBinomial (2 * N) u k; DrawMultinomial (2 * N - k) pvals m] /\
    new_allele_n =
      filter (fun c => (0 <? c)%Z) (m ++ repeat 1%Z (Z.to_nat k)) /\
    new_allele_n =
      filter (fun c => (0 <? c)%Z) m ++ repeat 1%Z (Z.to_nat k) /\
    Forall (fun c => (0 < c)%Z) new_allele_n.
Proof.
  intros Hs. pose proof (frequencies_value allele_n Hs) as Hf.
  rewrite (tick_yields_iff N u allele_n _ tr new_allele_n Hf). cbv zeta.
  split.
  - intros (k & m & Hba & Hbs & Hma & Hms & Htr & Hnew).
    exists k, m.
    split; [exact Hba|]. split; [exact Hbs|]. split; [exact Hma|].
    split; [exact Hms|]. split; [exact Htr|]. split; [exact Hnew|]. split.
    + rewrite Hnew. apply survivors_app.
    + rewrite Hnew. apply filter_positive_Forall.
  - intros (k & m & Hba & Hbs & Hma & Hms & Htr & Hnew & _).
    exists k, m.
    split; [exact Hba|]. split; [exact Hbs|]. split; [exact Hma|].
    split; [exact Hms|]. split; [exact Htr|]. exact Hnew.
Qed.

Lemma mutation_tick_steps_witness :
  Zsum [2%Z] <> 0%Z /\
  yields (tick 1 (1 # 2) [2%Z])
    [DrawBinomial (2 * 1) (1 # 2) 1;
     DrawMultinomial (2 * 1 - 1)
       (map (fun c => inject_Z c / inject_Z (Zsum [2%Z])) [2%Z]) [1%Z]]
    [1%Z; 1%Z].
Proof.
  assert (Hs : Zsum [2%Z] <> 0%Z) by discriminate.
  split; [exact Hs|].
  apply (proj2 (mutation_tick_steps 1 (1 # 2) [2%Z] _ _ Hs)).
  exists 1%Z, [1%Z]. cbv zeta.
  repeat (split || apply Forall_cons || apply Forall_nil
          || apply Forall2_cons || apply Forall2_nil);
    vm_compute; try discriminate; intros H; discriminate H.
Defined.

End Mutation.

(** * The drivers *)

Module Drivers.
Import Sweep SweepFacts SweepProgress SweepLoop.
Import Rng RngFacts.

(** C7 as stated does not hold: the sweep loop has no generation cap.
    With the beneficial allele absent ([p_BA = p_BB = 0]) and the
    parameters of the notebook, no number of iterations brings the loop
    to an end. *)
Lemma sweep_loop_runs_forever_without_B :
  ~ exists (fuel : nat) (o : outcome state),
      while_loop fuel (sweep_fitness (1 # 100)) (1 # 200) (999 # 1000)
        (init_state (1 # 2) (1 # 2) 0 0) = Some o.
Proof.
  intros (fuel & o & H).
  rewrite (absent_never_halts (1 # 100) (1 # 200) (999 # 1000)) in H.
  - discriminate H.
  - reflexivity.
  - apply init_state_consistent.
  - vm_compute; reflexivity.
  - vm_compute; reflexivity.
Qed.

(** C7, amended.  The drivers with a generation count halt at it: the
    infinite-alleles loop records exactly [n_g] generations and from a
    valid configuration it has a run; a drift+selection replicate always
    ends, with exactly [n_g] counts or with the [ValueError] of the
    sampler.  The sweep loop has neither a generation cap nor a result
    flag: it ends at once when [p_1B >= p_end], runs another tick
    otherwise, and a run that has ended either reached the threshold or
    holds non-finite frequencies.  Nothing bounds the number of its ticks:
    in binary64, with the parameters of the notebook and [r = 0] it ends
    after 1458 ticks and no fewer, and with [s = 1e-17] it never ends. *)
Theorem drivers_halt :
  (forall (w : fitness) (r p_end : Q) (fuel : nat) (st : state)
          (o : outcome state),
     while_loop fuel w r p_end st = Some o ->
     (exists st', o = Value st' /\ p_end <= p_1B st') \/ o = NonFinite) /\
  (forall (w : fitness) (r p_end : Q) (fuel : nat) (st : state),
     p_end <= p_1B st ->
     while_loop fuel w r p_end st = Some (Value st)) /\
  (forall (w : fitness) (r p_end : Q) (fuel : nat) (st st' : state),
     p_1B st < p_end ->
     tick w r st = Value st' ->
     while_loop (S fuel) w r p_end st = while_loop fuel w r p_end st') /\
  ((exists st' : Binary64.state,
      Binary64.while_loop 1458 (Binary64.sweep_fitness Binary64.notebook_s) 0
        Binary64.notebook_p_end Binary64.notebook_state = Some st' /\
      (Binary64.notebook_p_end <=? Binary64.p_1B st')%float = true) /\
   Binary64.while_loop 1457 (Binary64.sweep_fitness Binary64.notebook_s) 0
     Binary64.notebook_p_end Binary64.notebook_state = None /\
   forall fuel : nat,
     Binary64.while_loop fuel (Binary64.sweep_fitness Binary64.tiny) 0
       Binary64.notebook_p_end Binary64.notebook_state = None) /\
  (forall (N : Z) (u : Q) (n_g : nat) (allele_n : list Z),
     (0 < N)%Z -> 0 <= u -> u <= 1 ->
     Forall (fun c => (0 < c)%Z) allele_n ->
     Zsum allele_n = (2 * N)%Z ->
     (exists tr res,
        yields (InfiniteAlleles.simulate n_g N u allele_n) tr res) /\
     (forall tr res,
        yields (InfiniteAlleles.simulate n_g N u allele_n) tr res ->
        length (fst res) = n_g)) /\
  (forall (N : Z) (s : Q) (n_g : nat) (n_A : Z),
     (0 < n_g)%nat ->
     (exists tr : list draw,
        (exists row, yields (Drift.row n_g N s n_A) tr row) \/
        raises (Drift.row n_g N s n_A) tr ValueError) /\
     (forall tr row,
        yields (Drift.row n_g N s n_A) tr row -> length row = n_g)).
Proof.
  split; [|split; [|split; [|split; [|split]]]].
  - intros w r p_end fuel st o. apply while_loop_ends.
  - intros w r p_end fuel st. apply while_loop_at_threshold.
  - intros w r p_end fuel st st'. apply while_loop_below.
  - split; [|split].
    + destruct Binary64Facts.notebook_sweep_halts as (st' & Hrun & _ & Hend).
      exists st'. split; assumption.
    + exact Binary64Facts.notebook_sweep_not_sooner.
    + exact Binary64Facts.tiny_never_halts.
  - intros N u n_g allele_n HN Hu0 Hu1 Hpos Hsum. split.
    + exact (InfiniteAllelesFacts.simulate_run N u HN Hu0 Hu1
               n_g allele_n Hpos Hsum).
    + intros tr res H.
      exact (proj1 (InfiniteAllelesFacts.simulate_length N u n_g
                      allele_n tr res H)).
  - intros N s n_g n_A Hg. destruct n_g as [|steps]; [lia|].
    cbn [Drift.row]. split.
    + destruct (DriftFacts.generations_ends N s steps n_A)
        as (tr & [(l & Hrun)|Hrun]).
      * exists (tr ++ []). left. exists (n_A :: l).
        eapply yields_bind; [exact Hrun|]. apply yields_ret.
      * exists tr. right. apply raises_bind_l. exact Hrun.
    + intros tr row H.
      apply yields_bind_inv in H as (tr1 & tr2 & rest & -> & Hrest & H).
      apply yields_ret_inv in H as [-> ->].
      apply DriftFacts.generations_length in Hrest as [Hl _].
      cbn [length]. now rewrite Hl.
Qed.

Lemma drivers_halt_witness :
  (999 # 1000) <= p_1B (init_state 0 0 1 0) /\
  while_loop 0 (sweep_fitness (1 # 100)) (1 # 200) (999 # 1000)
    (init_state 0 0 1 0) = Some (Value (init_state 0 0 1 0)) /\
  (exists tr res,
     yields (InfiniteAlleles.simulate 3 100 (5 # 100) (repeat 20%Z 10))
       tr res) /\
  (exists tr : list draw,
     (exists row, yields (Drift.row 100 100 (1 # 100) 1) tr row) \/
     raises (Drift.row 100 100 (1 # 100) 1) tr ValueError).
Proof.
  destruct drivers_halt as (_ & Hend & _ & _ & Hsim & Hrow).
  assert (Hp : (999 # 1000) <= p_1B (init_state 0 0 1 0))
    by (vm_compute; discriminate).
  split; [exact Hp|]. split; [|split].
  - exact (Hend (sweep_fitness (1 # 100)) (1 # 200) (999 # 1000) 0%nat
             (init_state 0 0 1 0) Hp).
  - apply (Hsim 100%Z (5 # 100) 3%nat (repeat 20%Z 10)).
    + reflexivity.
    + vm_compute; discriminate.
    + vm_compute; discriminate.
    + repeat constructor.
    + reflexivity.
  - apply (Hrow 100%Z (1 # 100) 100%nat 1%Z). lia.
Defined.

End Drivers.

(** * The probability of the binomial draw *)

Module DriftProbability.
Import Rng RngFacts.




End DriftProbability.

(** * Further properties of the sweep *)

Module SweepInvariants.
Import Sweep SweepFacts SweepProgress SweepLoop.

Lemma tick_value_w_bar (w : fitness) (r : Q) (st st' : state) :
  tick w r st = Value st' -> ~ w_bar w st == 0.
Proof.
  intros Ht Hz. rewrite (tick_nonfinite w r st Hz) in Ht. discriminate.
Qed.

Lemma w_bar_nonneg (w : fitness) (st : state) :
  nonneg st -> nonneg_fitness w -> 0 <= w_bar w st.
Proof.
  intros (PAA & PAB & PBA & PBB) (WAA & WAB & WBA & WBB). unfold w_bar.
  pose proof (Qmult_le_0_compat _ _ WAA PAA).
  pose proof (Qmult_le_0_compat _ _ WAB PAB).
  pose proof (Qmult_le_0_compat _ _ WBA PBA).
  pose proof (Qmult_le_0_compat _ _ WBB PBB). lra.
Qed.

Lemma term_nonneg (r w p wb p1 p2 : Q) :
  0 <= r -> r <= 1 -> 0 <= w -> 0 <= p -> 0 < wb -> 0 <= p1 -> 0 <= p2 ->
  0 <= (1 - r) * w * p / wb + r * p1 * p2.
Proof.
  intros Hr0 Hr1 Hw Hp Hwb Hp1 Hp2.
  assert (H1 : 0 <= (1 - r) * w * p / wb).
  { apply Qle_shift_div_l; [exact Hwb|].
    setoid_replace (0 * wb) with 0 by ring.
    repeat apply Qmult_le_0_compat; lra. }
  assert (H2 : 0 <= r * p1 * p2) by (repeat apply Qmult_le_0_compat; lra).
  lra.
Qed.

(** A tick that returns keeps the frequencies non-negative. *)
Lemma tick_nonneg (w : fitness) (r : Q) (st st' : state) :
  tick w r st = Value st' ->
  consistent st -> nonneg st -> nonneg_fitness w ->
  0 <= r -> r <= 1 ->
  nonneg st'.
Proof.
  intros Ht Hc Hp Hf Hr0 Hr1.
  pose proof (tick_value_w_bar w r st st' Ht) as Hn.
  pose proof (w_bar_nonneg w st Hp Hf) as Hw0.
  assert (Hw : 0 < w_bar w st) by lra.
  destruct (tick_finite w r st Hn)
    as (st1 & Ht1 & HAA & HAB & HBA & HBB & _).
  rewrite Ht in Ht1. injection Ht1 as <-.
  destruct Hc as (H1A & H1B & H2A & H2B).
  destruct Hp as (PAA & PAB & PBA & PBB).
  destruct Hf as (WAA & WAB & WBA & WBB).
  unfold nonneg. rewrite HAA, HAB, HBA, HBB.
  repeat split; apply term_nonneg; try assumption; lra.
Qed.

(** X1.  A tick maps distributions to distributions: from a state of the
    loop with non-negative genotype frequencies that sum to one, with
    non-negative fitnesses, positive mean fitness and [0 <= r <= 1], the
    new genotype frequencies are again non-negative, at most one, and sum
    to one. *)
Theorem tick_keeps_distribution (w : fitness) (r : Q) (st : state) :
  consistent st -> nonneg st -> genotype_sum st == 1 ->
  nonneg_fitness w -> 0 < w_bar w st ->
  0 <= r -> r <= 1 ->
  exists st',
    tick w r st = Value st' /\
    consistent st' /\ genotype_sum st' == 1 /\
    (0 <= p_AA st' /\ p_AA st' <= 1) /\
    (0 <= p_AB st' /\ p_AB st' <= 1) /\
    (0 <= p_BA st' /\ p_BA st' <= 1) /\
    (0 <= p_BB st' /\ p_BB st' <= 1).
Proof.
  intros Hc Hp Hs Hf Hw Hr0 Hr1.
  assert (Hn : ~ w_bar w st == 0) by lra.
  destruct (tick_finite w r st Hn) as (st' & Ht & _).
  pose proof (tick_nonneg w r st st' Ht Hc Hp Hf Hr0 Hr1)
    as (PAA & PAB & PBA & PBB).
  pose proof (tick_preserves_sum w r st st' Hc Hs Ht) as Hs'.
  exists st'. split; [exact Ht|].
  split; [exact (tick_consistent w r st st' Ht)|].
  split; [exact Hs'|].
  unfold genotype_sum in Hs'. repeat split; lra.
Qed.

Lemma tick_keeps_distribution_witness :
  exists st',
    tick (sweep_fitness (1 # 100)) (1 # 200) notebook_state = Value st' /\
    consistent st' /\ genotype_sum st' == 1 /\
    (0 <= p_AA st' /\ p_AA st' <= 1) /\
    (0 <= p_AB st' /\ p_AB st' <= 1) /\
    (0 <= p_BA st' /\ p_BA st' <= 1) /\
    (0 <= p_BB st' /\ p_BB st' <= 1).
Proof.
  apply (tick_keeps_distribution (sweep_fitness (1 # 100)) (1 # 200)
           notebook_state).
  - apply init_state_consistent.
  - repeat split; vm_compute; discriminate.
  - vm_compute; reflexivity.
  - repeat split; vm_compute; discriminate.
  - vm_compute; reflexivity.
  - vm_compute; discriminate.
  - vm_compute; discriminate.
Defined.

(** X2.  Without recombination no genotype appears: at [r = 0] a genotype
    of frequency zero keeps frequency zero, whatever the fitnesses. *)
Theorem no_recombination_no_new_genotype (w : fitness) (st st' : state) :
  tick w 0 st = Value st' ->
  (p_AA st == 0 -> p_AA st' == 0) /\
  (p_AB st == 0 -> p_AB st' == 0) /\
  (p_BA st == 0 -> p_BA st' == 0) /\
  (p_BB st == 0 -> p_BB st' == 0).
Proof.
  intros Ht. pose proof (tick_value_w_bar w 0 st st' Ht) as Hn.
  destruct (tick_finite w 0 st Hn)
    as (st1 & Ht1 & HAA & HAB & HBA & HBB & _).
  rewrite Ht in Ht1. injection Ht1 as <-.
  rewrite HAA, HAB, HBA, HBB.
  repeat split; intros ->; field; exact Hn.
Qed.

Lemma no_recombination_no_new_genotype_witness :
  exists st',
    tick (sweep_fitness (1 # 100)) 0 notebook_state = Value st' /\
    p_BB st' == 0.
Proof.
  eexists. split; [reflexivity|].
  apply (no_recombination_no_new_genotype (sweep_fitness (1 # 100))
           notebook_state _ eq_refl).
  vm_compute; reflexivity.
Defined.

(** X3.  Recombination creates the missing genotype: with [r > 0],
    non-negative fitnesses and frequencies, and both the allele B at
    site 1 and the allele B at site 2 present, the genotype BB has positive
    frequency after one tick, also when it was absent before. *)
Theorem recombination_creates_BB (w : fitness) (r : Q) (st : state) :
  consistent st -> nonneg st -> nonneg_fitness w -> 0 < w_bar w st ->
  0 < r -> r <= 1 ->
  0 < p_1B st -> 0 < p_2B st ->
  exists st', tick w r st = Value st' /\ 0 < p_BB st'.
Proof.
  intros Hc Hp Hf Hw Hr0 Hr1 H1B H2B.
  assert (Hn : ~ w_bar w st == 0) by lra.
  destruct (tick_finite w r st Hn)
    as (st' & Ht & _ & _ & _ & HBB & _).
  exists st'. split; [exact Ht|]. rewrite HBB.
  destruct Hp as (_ & _ & _ & PBB). destruct Hf as (_ & _ & _ & WBB).
  assert (H1 : 0 <= (1 - r) * w_BB w * p_BB st / w_bar w st).
  { apply Qle_shift_div_l; [exact Hw|].
    setoid_replace (0 * w_bar w st) with 0 by ring.
    repeat apply Qmult_le_0_compat; lra. }
  assert (H2 : 0 < r * p_1B st * p_2B st)
    by (repeat apply Qmult_lt_0_compat; assumption).
  lra.
Qed.

Lemma recombination_creates_BB_witness :
  p_BB notebook_state == 0 /\
  exists st',
    tick (sweep_fitness (1 # 100)) (1 # 200) notebook_state = Value st' /\
    0 < p_BB st'.
Proof.
  split; [vm_compute; reflexivity|].
  apply (recombination_creates_BB (sweep_fitness (1 # 100)) (1 # 200)
           notebook_state).
  - apply init_state_consistent.
  - repeat split; vm_compute; discriminate.
  - repeat split; vm_compute; discriminate.
  - vm_compute; reflexivity.
  - vm_compute; reflexivity.
  - vm_compute; discriminate.
  - vm_compute; reflexivity.
  - vm_compute; reflexivity.
Defined.

(** With one fitness [c] for all genotypes the mean fitness is [c]. *)
Lemma equal_fitness_w_bar (w : fitness) (c : Q) (st : state) :
  w_AA w == c -> w_AB w == c -> w_BA w == c -> w_BB w == c ->
  genotype_sum st == 1 ->
  w_bar w st == c.
Proof.
  unfold w_bar, genotype_sum. intros -> -> -> -> Hs.
  setoid_replace (c * p_AA st + c * p_AB st + c * p_BA st + c * p_BB st)
    with (c * (p_AA st + p_AB st + p_BA st + p_BB st)) by ring.
  rewrite Hs. ring.
Qed.

(** X4.  Without selection (one non-zero fitness [c] for the four
    genotypes) a tick leaves the allele frequencies at both sites
    unchanged and multiplies the linkage disequilibrium
    [p_AA * p_BB - p_AB * p_BA] by [1 - r]. *)
Theorem neutral_tick (w : fitness) (c r : Q) (st : state) :
  w_AA w == c -> w_AB w == c -> w_BA w == c -> w_BB w == c ->
  ~ c == 0 ->
  consistent st -> genotype_sum st == 1 ->
  exists st',
    tick w r st = Value st' /\
    p_1A st' == p_1A st /\ p_1B st' == p_1B st /\
    p_2A st' == p_2A st /\ p_2B st' == p_2B st /\
    p_AA st' * p_BB st' - p_AB st' * p_BA st' ==
      (1 - r) * (p_AA st * p_BB st - p_AB st * p_BA st).
Proof.
  intros WAA WAB WBA WBB Hc0 Hc Hs.
  pose proof (equal_fitness_w_bar w c st WAA WAB WBA WBB Hs) as Hw.
  assert (Hn : ~ w_bar w st == 0) by (rewrite Hw; exact Hc0).
  destruct (tick_finite w r st Hn)
    as (st' & Ht & HAA & HAB & HBA & HBB & T1A & T1B & T2A & T2B).
  exists st'. split; [exact Ht|].
  rewrite T1A, T1B, T2A, T2B, HAA, HAB, HBA, HBB, Hw, WAA, WAB, WBA, WBB.
  destruct Hc as (H1A & H1B & H2A & H2B). unfold genotype_sum in Hs.
  rewrite H1A, H1B, H2A, H2B.
  assert (HAAeq : p_AA st == 1 - p_AB st - p_BA st - p_BB st) by lra.
  rewrite HAAeq.
  repeat split; field; exact Hc0.
Qed.

Lemma neutral_tick_witness :
  exists st',
    tick (sweep_fitness 0) (1 # 200) notebook_state = Value st' /\
    p_1A st' == p_1A notebook_state /\ p_1B st' == p_1B notebook_state /\
    p_2A st' == p_2A notebook_state /\ p_2B st' == p_2B notebook_state /\
    p_AA st' * p_BB st' - p_AB st' * p_BA st' ==
      (1 - (1 # 200)) *
      (p_AA notebook_state * p_BB notebook_state
       - p_AB notebook_state * p_BA notebook_state).
Proof.
  apply (neutral_tick (sweep_fitness 0) 1 (1 # 200) notebook_state).
  - vm_compute; reflexivity.
  - vm_compute; reflexivity.
  - vm_compute; reflexivity.
  - vm_compute; reflexivity.
  - vm_compute; discriminate.
  - apply init_state_consistent.
  - vm_compute; reflexivity.
Defined.

(** X5.  Without selection and without recombination the tick is the
    identity: every genotype and allele frequency is unchanged. *)
Theorem neutral_unlinked_identity (w : fitness) (c : Q) (st : state) :
  w_AA w == c -> w_AB w == c -> w_BA w == c -> w_BB w == c ->
  ~ c == 0 ->
  consistent st -> genotype_sum st == 1 ->
  exists st',
    tick w 0 st = Value st' /\
    p_AA st' == p_AA st /\ p_AB st' == p_AB st /\
    p_BA st' == p_BA st /\ p_BB st' == p_BB st /\
    p_1A st' == p_1A st /\ p_1B st' == p_1B st /\
    p_2A st' == p_2A st /\ p_2B st' == p_2B st.
Proof.
  intros WAA WAB WBA WBB Hc0 Hc Hs.
  pose proof (equal_fitness_w_bar w c st WAA WAB WBA WBB Hs) as Hw.
  assert (Hn : ~ w_bar w st == 0) by (rewrite Hw; exact Hc0).
  destruct (tick_finite w 0 st Hn)
    as (st' & Ht & HAA & HAB & HBA & HBB & T1A & T1B & T2A & T2B).
  exists st'. split; [exact Ht|].
  rewrite T1A, T1B, T2A, T2B, HAA, HAB, HBA, HBB, Hw, WAA, WAB, WBA, WBB.
  destruct Hc as (H1A & H1B & H2A & H2B).
  rewrite H1A, H1B, H2A, H2B.
  repeat split; field; exact Hc0.
Qed.

Lemma neutral_unlinked_identity_witness :
  exists st',
    tick (sweep_fitness 0) 0 notebook_state = Value st' /\
    p_AA st' == p_AA notebook_state /\ p_AB st' == p_AB notebook_state /\
    p_BA st' == p_BA notebook_state /\ p_BB st' == p_BB notebook_state /\
    p_1A st' == p_1A notebook_state /\ p_1B st' == p_1B notebook_state /\
    p_2A st' == p_2A notebook_state /\ p_2B st' == p_2B notebook_state.
Proof.
  apply (neutral_unlinked_identity (sweep_fitness 0) 1 notebook_state).
  - vm_compute; reflexivity.
  - vm_compute; reflexivity.
  - vm_compute; reflexivity.
  - vm_compute; reflexivity.
  - vm_compute; discriminate.
  - apply init_state_consistent.
  - vm_compute; reflexivity.
Defined.

(** A loop that ends leaves a distribution. *)
Lemma while_loop_valid (w : fitness) (r p_end : Q) :
  nonneg_fitness w -> 0 <= r -> r <= 1 ->
  forall (fuel : nat) (st st' : state),
    while_loop fuel w r p_end st = Some (Value st') ->
    consistent st -> nonneg st -> genotype_sum st == 1 ->
    consistent st' /\ nonneg st' /\ genotype_sum st' == 1.
Proof.
  intros Hf Hr0 Hr1. induction fuel as [|fuel IH]; intros st st';
    cbn [while_loop];
    destruct (Qlt_le_dec (p_1B st) p_end) as [Hlt|Hge];
    try discriminate;
    try (intros H Hc Hp Hs; injection H as <-;
         split; [|split]; assumption).
  destruct (tick w r st) as [st1| |e] eqn:Ht; try discriminate.
  intros H Hc Hp Hs. apply (IH st1 st' H).
  - exact (tick_consistent w r st st1 Ht).
  - exact (tick_nonneg w r st st1 Ht Hc Hp Hf Hr0 Hr1).
  - exact (tick_preserves_sum w r st st1 Hc Hs Ht).
Qed.

(** X6.  Whatever the number of iterations, for a recombination
    probability [0 <= r <= 1/2] (the values of the notebook are at most
    [0.5 * s]) a [while] loop that ends in finite frequencies ends in a
    distribution at or above the threshold: non-negative genotype
    frequencies that sum to one, stored allele frequencies in agreement
    with them, and [p_1B >= p_end]. *)
Theorem while_loop_returns_distribution
    (w : fitness) (r p_end : Q) (fuel : nat) (st st' : state) :
  nonneg_fitness w -> 0 <= r -> r <= 1 # 2 ->
  consistent st -> nonneg st -> genotype_sum st == 1 ->
  while_loop fuel w r p_end st = Some (Value st') ->
  consistent st' /\ nonneg st' /\ genotype_sum st' == 1 /\
  p_end <= p_1B st'.
Proof.
  intros Hf Hr0 Hhalf Hc Hp Hs H.
  assert (Hr1 : r <= 1) by lra.
  destruct (while_loop_valid w r p_end Hf Hr0 Hr1 fuel st st' H Hc Hp Hs)
    as (Hc' & Hp' & Hs').
  split; [exact Hc'|]. split; [exact Hp'|]. split; [exact Hs'|].
  exact (while_loop_exit w r p_end fuel st st' H).
Qed.

Lemma while_loop_returns_distribution_witness :
  exists st',
    while_loop 2 (sweep_fitness 1) 0 (1 # 2)
      (init_state (1 # 2) (1 # 4) (1 # 4) 0) = Some (Value st') /\
    consistent st' /\ nonneg st' /\ genotype_sum st' == 1 /\
    (1 # 2) <= p_1B st'.
Proof.
  assert (H : exists st',
             while_loop 2 (sweep_fitness 1) 0 (1 # 2)
               (init_state (1 # 2) (1 # 4) (1 # 4) 0) = Some (Value st'))
    by (eexists; vm_compute; reflexivity).
  destruct H as [st' H]. exists st'. split; [exact H|].
  apply (while_loop_returns_distribution (sweep_fitness 1) 0 (1 # 2) 2
           (init_state (1 # 2) (1 # 4) (1 # 4) 0) st').
  - repeat split; vm_compute; discriminate.
  - vm_compute; discriminate.
  - vm_compute; discriminate.
  - apply init_state_consistent.
  - repeat split; vm_compute; discriminate.
  - vm_compute; reflexivity.
  - exact H.
Defined.

Lemma product_at_most_quarter (a b : Q) :
  a + b == 1 -> a * b <= 1 # 4.
Proof.
  intros Hab. assert (Hb : b == 1 - a) by lra. rewrite Hb.
  assert (Hsq : 0 <= (a - (1 # 2)) * (a - (1 # 2))).
  { destruct (Qlt_le_dec a (1 # 2)) as [Hlt|Hge].
    - setoid_replace ((a - (1 # 2)) * (a - (1 # 2)))
        with (((1 # 2) - a) * ((1 # 2) - a)) by ring.
      apply Qmult_le_0_compat; lra.
    - apply Qmult_le_0_compat; lra. }
  setoid_replace (a * (1 - a))
    with ((1 # 4) - (a - (1 # 2)) * (a - (1 # 2))) by ring.
  lra.
Qed.

(** X7.  The scaled heterozygosity [h = p_2A * p_2B / h0] of a
    distribution: it is not finite when the initial heterozygosity [h0]
    is zero (site 2 monomorphic at the start); for [h0 > 0] it is finite,
    non-negative and at most [1 / (4 * h0)], hence within [[0, 1]] for the
    notebook's [h0 = 1/4]. *)
Theorem scaled_heterozygosity_range (h0 : Q) (st : state) :
  consistent st -> nonneg st -> genotype_sum st == 1 ->
  (h0 == 0 -> scaled_h h0 st = NonFinite) /\
  (0 < h0 ->
   exists h, scaled_h h0 st = Value h /\ 0 <= h /\ h * h0 <= 1 # 4) /\
  (h0 == 1 # 4 ->
   exists h, scaled_h h0 st = Value h /\ 0 <= h /\ h <= 1).
Proof.
  intros (_ & _ & H2A & H2B) (PAA & PAB & PBA & PBB) Hs.
  unfold genotype_sum in Hs.
  assert (Ha : 0 <= p_2A st) by lra. assert (Hb : 0 <= p_2B st) by lra.
  assert (Hab : p_2A st + p_2B st == 1) by lra.
  pose proof (product_at_most_quarter _ _ Hab) as Hq.
  pose proof (Qmult_le_0_compat _ _ Ha Hb) as H0.
  unfold scaled_h. split; [|split].
  - intros Hz. now apply np_truediv_zero.
  - intros Hpos. exists (p_2A st * p_2B st / h0). split; [|split].
    + apply np_truediv_value. lra.
    + apply Qle_shift_div_l; [exact Hpos|]. lra.
    + setoid_replace (p_2A st * p_2B st / h0 * h0)
        with (p_2A st * p_2B st) by (field; lra).
      exact Hq.
  - intros Hh0. exists (p_2A st * p_2B st / h0). split; [|split].
    + apply np_truediv_value. lra.
    + apply Qle_shift_div_l; lra.
    + apply Qle_shift_div_r; lra.
Qed.

Lemma scaled_heterozygosity_range_witness :
  exists h,
    scaled_h (1 # 4) notebook_state = Value h /\ 0 <= h /\ h <= 1.
Proof.
  apply (proj2 (proj2 (scaled_heterozygosity_range (1 # 4) notebook_state
    (init_state_consistent _ _ _ _)
    ltac:(repeat split; vm_compute; discriminate)
    ltac:(vm_compute; reflexivity)))).
  reflexivity.
Defined.

End SweepInvariants.

(** * The cells around the sweep loop *)

Module SweepCell.
Import Sweep SweepFacts SweepProgress SweepLoop SweepInvariants SweepRun.

Lemma initial_state_value (N n_BA : Q) :
  ~ N == 0 ->
  initial_state N n_BA =
    Value (init_state ((N / 2 - n_BA) / N) (N / 2 / N) (n_BA / N) (0 / N)).
Proof.
  intros HN. unfold initial_state.
  now rewrite !(py_truediv_value _ N HN).
Qed.

(** X8.  The initial frequencies of the sweep.  A population size of zero
    raises [ZeroDivisionError].  Otherwise, for every [N] and every
    starting number [n_BA], the frequencies sum to one, the beneficial
    allele has frequency [n_BA / N], the genotype BB is absent and both
    alleles of the neutral site have frequency [1/2], so that the
    reference heterozygosity [h0] is [1/4]; the frequencies are
    non-negative exactly when [0 <= n_BA <= N/2] (for [N > 0]). *)
Theorem initial_state_properties (N n_BA : Q) :
  (N == 0 -> initial_state N n_BA = Raises ZeroDivisionError) /\
  (~ N == 0 ->
   exists st,
     initial_state N n_BA = Value st /\
     consistent st /\ genotype_sum st == 1 /\
     p_1B st == n_BA / N /\ p_BB st == 0 /\
     p_2A st == 1 # 2 /\ p_2B st == 1 # 2 /\
     p_2A st * p_2B st == 1 # 4 /\
     (0 < N -> (nonneg st <-> 0 <= n_BA /\ n_BA <= N / 2))).
Proof.
  split.
  - intros HN. unfold initial_state. now rewrite (py_truediv_zero _ N HN).
  - intros HN. rewrite (initial_state_value N n_BA HN).
    eexists. split; [reflexivity|].
    split; [apply init_state_consistent|].
    unfold genotype_sum, nonneg; cbn.
    split; [field; exact HN|]. split; [field; exact HN|].
    split; [field; exact HN|]. split; [field; exact HN|].
    split; [field; exact HN|]. split; [field; exact HN|].
    intros HNpos.
    assert (Hhalf : N / 2 == N * (1 # 2)) by field.
    assert (H1 : 0 <= N / 2 / N) by (apply Qle_shift_div_l; lra).
    assert (H2 : 0 <= 0 / N) by (apply Qle_shift_div_l; lra).
    split.
    + intros (HAA & _ & HBA & _). split.
      * apply (Qmult_le_compat_r _ _ N) in HBA; [|lra].
        setoid_replace (n_BA / N * N) with n_BA in HBA by (field; lra). lra.
      * apply (Qmult_le_compat_r _ _ N) in HAA; [|lra].
        setoid_replace ((N / 2 - n_BA) / N * N) with (N / 2 - n_BA) in HAA
          by (field; lra).
        lra.
    + intros [Hn0 Hn1]. repeat split; try assumption;
        apply Qle_shift_div_l; lra.
Qed.

Lemma initial_state_properties_witness :
  exists st,
    initial_state 2000 1 = Value st /\
    consistent st /\ genotype_sum st == 1 /\
    p_1B st == 1 / 2000 /\ p_BB st == 0 /\
    p_2A st == 1 # 2 /\ p_2B st == 1 # 2 /\
    p_2A st * p_2B st == 1 # 4 /\
    (0 < 2000 -> (nonneg st <-> 0 <= 1 /\ 1 <= 2000 / 2)).
Proof.
  apply (proj2 (initial_state_properties 2000 1)). vm_compute; discriminate.
Defined.

(** X9.  The loop cell of the notebook, evaluated in binary64 with its
    own parameters ([N = 2*1000], [n_BA = 1], [s = 0.01],
    [p_end = 0.999]).  [np.arange] gives 51 recombination values, from [0]
    to [0.005], in ascending order.  The [while] loop ends for every one
    of them, the longest after 1466 ticks.  Every recorded [h[i]] lies in
    [[0, 1]] and [h] grows with [r]: next to the selected site the sweep
    leaves less than a hundredth of the heterozygosity, at [r = 0.5 * s]
    more than [0.99] of it.  With [s = 0] the cell raises
    [ZeroDivisionError], whatever the other parameters. *)
Theorem notebook_sweep_cell :
  (exists rs : list float,
     Binary64.recombination_values Binary64.notebook_s = Value rs /\
     length rs = 51%nat /\
     hd 1%float rs = 0%float /\
     last rs 0%float = (5 / 1000)%float /\
     Binary64.ascending rs = true) /\
  (exists hs : list float,
     Binary64.cell 1466 Binary64.notebook_s Binary64.notebook_p_end 2000 1
       = Some (Value hs) /\
     length hs = 51%nat /\
     forallb (fun h => (0 <=? h) && (h <=? 1))%float hs = true /\
     Binary64.ascending hs = true /\
     (hd 1 hs <? 1 / 100)%float = true /\
     (99 / 100 <? last hs 0)%float = true) /\
  Binary64.cell 1465 Binary64.notebook_s Binary64.notebook_p_end 2000 1
    = None /\
  (forall (fuel : nat) (p_end : float) (N n_BA : Z),
     Binary64.cell fuel 0 p_end N n_BA = Some (Raises ZeroDivisionError)).
Proof.
  split; [|split; [|split]].
  - eexists. split; [vm_compute; reflexivity|].
    repeat split; vm_compute; reflexivity.
  - eexists. split; [vm_compute; reflexivity|].
    repeat split; vm_compute; reflexivity.
  - vm_compute. reflexivity.
  - intros fuel p_end N n_BA. reflexivity.
Qed.

Lemma Qopp_opp (q : Q) : Qopp (Qopp q) = q.
Proof. destruct q as [n d]. unfold Qopp; cbn. now rewrite Z.opp_involutive. Qed.

(** X10.  The mirrored curve of the plot cell is symmetric around distance
    zero: [h_r] reads the same in both directions, [r_r] (for
    recombination values that start at [0]) is turned into its negation
    by reversal, and both have [2 * len - 1] entries when [r] and [h] have
    [len >= 1] entries each. *)
Theorem reflected_curve_symmetric (r' : list Q) (A : Type) (h : list A) :
  rev (reflect_h h) = reflect_h h /\
  map Qopp (rev (reflect_r (0 :: r'))) = reflect_r (0 :: r') /\
  (length h = length (0 :: r') ->
   length (reflect_h h) = (2 * length h - 1)%nat /\
   length (reflect_r (0 :: r')) = (2 * length h - 1)%nat).
Proof.
  split; [|split].
  - unfold reflect_h. destruct h as [|a t]; [reflexivity|]. cbn [tl].
    rewrite rev_app_distr, rev_involutive. cbn [rev].
    now rewrite <- app_assoc.
  - unfold reflect_r. cbn [tl].
    rewrite rev_app_distr. cbn [rev].
    rewrite <- map_rev, rev_involutive, !map_app, map_map.
    rewrite <- app_assoc. cbn [map app]. f_equal.
    change (Qopp 0) with 0. f_equal.
    rewrite <- (map_id r') at 2. apply map_ext. intros q. apply Qopp_opp.
  - intros Hlen. unfold reflect_h, reflect_r.
    destruct h as [|a t]; [discriminate|]. cbn [tl] in *.
    rewrite !length_app, length_map, !length_rev. cbn [length] in *. lia.
Qed.

End SweepCell.

Lemma reflected_curve_symmetric_witness :
  length [1; 1 # 2; 1 # 3] = length [0; 1 # 1000; 1 # 200] /\
  length (SweepRun.reflect_h [1; 1 # 2; 1 # 3]) = (2 * 3 - 1)%nat /\
  length (SweepRun.reflect_r [0; 1 # 1000; 1 # 200]) = (2 * 3 - 1)%nat.
Proof.
  split; [reflexivity|].
  apply (proj2 (proj2 (SweepCell.reflected_curve_symmetric
                         [1 # 1000; 1 # 200] Q [1; 1 # 2; 1 # 3]))).
  reflexivity.
Defined.

(** * Further properties of the drift mode *)

Module DriftExtras.
Import Rng RngFacts Drift DriftFacts DriftStates.

Lemma step_yields_inv (N : Z) (s : Q) (n : Z) (tr : list draw) (k : Z) :
  yields (step N s n) tr k ->
  exists p,
    p_A N s n = Value p /\ tr = [DrawBinomial N p k] /\
    binomial_args N p /\ binomial_support N p k.
Proof.
  unfold step, checked, binomial. intros H.
  destruct (p_A N s n) as [p| |e];
    [|now apply yields_throw_inv in H|now apply yields_throw_inv in H].
  apply yields_binomial_inv in H as (k' & tr' & -> & Ha & Hs & H).
  apply yields_ret_inv in H as [-> ->]. exists p. auto.
Qed.

Lemma step_yields (N : Z) (s : Q) (n : Z) (p : Q) (k : Z) :
  p_A N s n = Value p -> binomial_args N p -> binomial_support N p k ->
  yields (step N s n) [DrawBinomial N p k] k.
Proof.
  intros Hp Ha Hs. rewrite (step_value N s n p Hp).
  apply yields_binomial; [assumption..|]. apply yields_ret.
Qed.

Lemma stays_forever (N : Z) (s : Q) (n : Z) :
  stays N s n ->
  forall steps : nat,
    (exists tr, yields (generations steps N s n) tr (repeat n steps)) /\
    (forall tr l,
       yields (generations steps N s n) tr l -> l = repeat n steps).
Proof.
  intros (p & Hp & Ha & Hk). induction steps as [|steps [[tr Hrun] IH]];
    cbn [generations repeat].
  - split; [exists []; constructor|].
    intros tr l H. now apply yields_ret_inv in H as [_ ->].
  - split.
    + exists ([DrawBinomial N p n] ++ tr ++ []).
      eapply yields_bind; [apply (step_yields N s n p n Hp Ha); now apply Hk|].
      eapply yields_bind; [exact Hrun|]. apply yields_ret.
    + intros tr0 l H.
      apply yields_bind_inv in H as (tr1 & tr' & k & -> & Hstep & H).
      apply yields_bind_inv in H as (tr2 & tr3 & rest & -> & Hrest & H).
      apply yields_ret_inv in H as [-> ->].
      apply step_yields_inv in Hstep as (p' & Hp' & _ & _ & Hs').
      rewrite Hp in Hp'. injection Hp' as <-.
      apply Hk in Hs'. subst k. f_equal. exact (IH _ _ Hrest).
Qed.

Lemma lost_stays (N : Z) (s : Q) : (0 < N)%Z -> stays N s 0.
Proof.
  intros HN.
  assert (Hy : 0 < inject_Z N).
  { change 0 with (inject_Z 0). now rewrite <- Zlt_Qlt. }
  exists (inject_Z 0 * (1 + s)
          / (inject_Z 0 * (1 + s) + inject_Z N - inject_Z 0)).
  change (inject_Z 0) with 0.
  assert (Hden : ~ 0 * (1 + s) + inject_Z N - 0 == 0).
  { setoid_replace (0 * (1 + s) + inject_Z N - 0) with (inject_Z N) by ring.
    lra. }
  assert (Hp0 : 0 * (1 + s) / (0 * (1 + s) + inject_Z N - 0) == 0)
    by (field; lra).
  split; [|split].
  - unfold p_A. change (inject_Z 0) with 0. now apply np_truediv_value.
  - repeat split; [lia|rewrite Hp0; lra..].
  - intros k. unfold binomial_support. split.
    + intros (_ & H0 & _). now apply H0.
    + intros ->. repeat split; try lia. rewrite Hp0. intros H. discriminate H.
Qed.

(** X11.  Loss is absorbing.  For [N > 0] and every [s]: once the count
    of A is [0], the selection probability is [0], the draw is valid and
    returns [0], so every later count of the replicate is [0] and the
    replicate runs to its end. *)
Theorem loss_absorbing (N : Z) (s : Q) (steps : nat) :
  (0 < N)%Z ->
  (exists tr, yields (generations steps N s 0) tr (repeat 0%Z steps)) /\
  (forall tr l,
     yields (generations steps N s 0) tr l -> l = repeat 0%Z steps).
Proof.
  intros HN. exact (stays_forever N s 0 (lost_stays N s HN) steps).
Qed.

Lemma loss_absorbing_witness :
  (exists tr,
     yields (generations 99 100 (1 # 100) 0) tr (repeat 0%Z 99)) /\
  (forall tr l,
     yields (generations 99 100 (1 # 100) 0) tr l -> l = repeat 0%Z 99).
Proof.
  exact (loss_absorbing 100 (1 # 100) 99 eq_refl).
Defined.

(** X12.  A lethal allele ([s = -1], fitness zero for A) in a population
    of size [N > 0]: while B is present ([0 <= n < N]) the selection
    probability is [0] and the next count is [0], whatever is drawn; when A
    is fixed ([n = N]) the quotient is [0/0], and [rng.binomial] raises
    [ValueError] on the [nan]. *)
Theorem lethal_allele (N n : Z) :
  (0 < N)%Z ->
  ((0 <= n < N)%Z ->
   (exists tr, yields (step N (-1 # 1) n) tr 0%Z) /\
   (forall tr k, yields (step N (-1 # 1) n) tr k -> k = 0%Z)) /\
  raises (step N (-1 # 1) N) [] ValueError.
Proof.
  intros HN. split.
  - intros [Hn0 HnN].
    assert (Hlt : inject_Z n < inject_Z N) by now rewrite <- Zlt_Qlt.
    set (x := inject_Z n) in *. set (y := inject_Z N) in *.
    assert (Hden : ~ x * (1 + (-1 # 1)) + y - x == 0).
    { setoid_replace (x * (1 + (-1 # 1)) + y - x) with (y - x) by ring. lra. }
    assert (Hp : p_A N (-1 # 1) n =
                 Value (x * (1 + (-1 # 1)) / (x * (1 + (-1 # 1)) + y - x))).
    { unfold p_A. fold x y. now apply np_truediv_value. }
    assert (Hp0 : x * (1 + (-1 # 1)) / (x * (1 + (-1 # 1)) + y - x) == 0)
      by (field; lra).
    split.
    + eexists. apply (step_yields N (-1 # 1) n _ 0 Hp).
      * repeat split; [lia|rewrite Hp0; lra..].
      * repeat split; try lia. rewrite Hp0. intros H. discriminate H.
    + intros tr k H.
      apply step_yields_inv in H as (p' & Hp' & _ & _ & (_ & H0 & _)).
      rewrite Hp in Hp'. injection Hp' as <-. now apply H0.
  - unfold step, p_A.
    rewrite np_truediv_zero by ring.
    apply raises_throw.
Qed.

Lemma lethal_allele_witness :
  ((exists tr, yields (step 100 (-1 # 1) 1) tr 0%Z) /\
   (forall tr k, yields (step 100 (-1 # 1) 1) tr k -> k = 0%Z)) /\
  raises (step 100 (-1 # 1) 100) [] ValueError.
Proof.
  destruct (lethal_allele 100 1 eq_refl) as [H _].
  destruct (lethal_allele 100 100 eq_refl) as [_ Hr].
  split; [apply H; lia | exact Hr].
Defined.

Lemma generations_in_range (N : Z) (s : Q) :
  forall (steps : nat) (n : Z) (tr : list draw) (l : list Z),
    yields (generations steps N s n) tr l ->
    Forall (fun c => (0 <= c <= N)%Z) l.
Proof.
  induction steps as [|steps IH]; intros n tr l H; cbn [generations] in H.
  - apply yields_ret_inv in H as [_ ->]. constructor.
  - apply yields_bind_inv in H as (tr1 & tr' & k & -> & Hstep & H).
    apply yields_bind_inv in H as (tr2 & tr3 & rest & -> & Hrest & H).
    apply yields_ret_inv in H as [-> ->].
    apply step_yields_inv in Hstep as (p & _ & _ & _ & (Hk & _)).
    constructor; [exact Hk | exact (IH _ _ _ Hrest)].
Qed.

(** X13.  Every finished replicate is a row of [n_g] counts that starts
    with [n_A] and whose later entries all lie between [0] and [N]; it
    took one draw per later entry. *)
Theorem replicate_row_shape (n_g : nat) (N : Z) (s : Q) (n_A : Z)
    (tr : list draw) (r : list Z) :
  yields (row n_g N s n_A) tr r ->
  exists l,
    r = n_A :: l /\ length r = n_g /\ length tr = (n_g - 1)%nat /\
    Forall (fun c => (0 <= c <= N)%Z) l.
Proof.
  destruct n_g as [|steps]; cbn [row]; intros H.
  - now apply yields_throw_inv in H.
  - apply yields_bind_inv in H as (tr1 & tr2 & rest & -> & Hrest & H).
    apply yields_ret_inv in H as [-> ->].
    exists rest. split; [reflexivity|].
    destruct (generations_length N s steps n_A tr1 rest Hrest) as [Hl Ht].
    split; [cbn [length]; now rewrite Hl|].
    split; [rewrite length_app, Ht; cbn; lia|].
    exact (generations_in_range N s steps n_A tr1 rest Hrest).
Qed.

Lemma replicate_row_shape_witness :
  yields (row 2 100 (1 # 100) 1) [DrawBinomial 100 (10100 # 1000100) 3]
    [1%Z; 3%Z] /\
  exists l,
    [1%Z; 3%Z] = 1%Z :: l /\ length [1%Z; 3%Z] = 2%nat /\
    length [DrawBinomial 100 (10100 # 1000100) 3] = (2 - 1)%nat /\
    Forall (fun c => (0 <= c <= 100)%Z) l.
Proof.
  assert (H : yields (row 2 100 (1 # 100) 1)
                [DrawBinomial 100 (10100 # 1000100) 3] [1%Z; 3%Z]).
  { apply yields_binomial.
    - repeat split; vm_compute; discriminate.
    - repeat split; try lia; intros H; vm_compute in H; discriminate H.
    - apply yields_ret. }
  split; [exact H|].
  exact (replicate_row_shape 2 100 (1 # 100) 1 _ _ H).
Defined.

(** X14.  The replicate loop returns [n_r] rows of [n_g] counts each,
    and adds to [n_lost] exactly the number of rows whose last count is
    zero, so the counter grows by at most [n_r]. *)
Theorem replicates_count_losses (n_g : nat) (N : Z) (s : Q) (n_A : Z) :
  forall (n_r : nat) (n_lost : Z) (tr : list draw)
         (rows : list (list Z)) (lost : Z),
    yields (replicates n_r n_g N s n_A n_lost) tr (rows, lost) ->
    length rows = n_r /\
    Forall (fun r => length r = n_g) rows /\
    lost = (n_lost
            + Z.of_nat (length (filter (fun r => (last r 1 =? 0)%Z) rows)))%Z /\
    (n_lost <= lost <= n_lost + Z.of_nat n_r)%Z.
Proof.
  induction n_r as [|n_r IH]; intros n_lost tr rows lost H;
    cbn [replicates] in H.
  - apply yields_ret_inv in H as [_ H]. injection H as -> ->. cbn.
    repeat split; try constructor; lia.
  - apply yields_bind_inv in H as (tr1 & tr' & r & -> & Hrow & H).
    apply yields_bind_inv in H as (tr2 & tr3 & [rows' lost'] & -> & Hrest & H).
    apply yields_ret_inv in H as [_ H]. cbn [fst snd] in H.
    injection H as -> ->.
    apply IH in Hrest as (Hlen & Hall & Hlost & Hbound).
    destruct (replicate_row_shape n_g N s n_A tr1 r Hrow)
      as (l & _ & Hr & _).
    cbn [length filter]. split; [now rewrite Hlen|].
    split; [constructor; assumption|].
    destruct (last r 1 =? 0)%Z; cbn [length]; split; lia.
Qed.

Lemma replicates_count_losses_witness :
  yields (replicates 1 2 100 (1 # 100) 1 0)
    [DrawBinomial 100 (10100 # 1000100) 0] ([[1%Z; 0%Z]], 1%Z) /\
  length [[1%Z; 0%Z]] = 1%nat /\
  Forall (fun r => length r = 2%nat) [[1%Z; 0%Z]] /\
  1%Z = (0 + Z.of_nat (length (filter (fun r => (last r 1 =? 0)%Z)
                                  [[1%Z; 0%Z]])))%Z /\
  (0 <= 1 <= 0 + Z.of_nat 1)%Z.
Proof.
  assert (H : yields (replicates 1 2 100 (1 # 100) 1 0)
                [DrawBinomial 100 (10100 # 1000100) 0] ([[1%Z; 0%Z]], 1%Z)).
  { apply yields_binomial.
    - repeat split; vm_compute; discriminate.
    - repeat split; try lia; intros H; vm_compute in H; discriminate H.
    - apply yields_ret. }
  split; [exact H|].
  exact (replicates_count_losses 2 100 (1 # 100) 1 1 0 _ _ _ H).
Defined.

(** X15.  Without selection the draw samples the current frequency: for
    [s = 0] and [N > 0] the probability [p_A] passed to the draw is
    [n / N]. *)
Theorem neutral_probability (N n : Z) :
  (0 < N)%Z ->
  exists p,
    p_A N 0 n = Value p /\ p == inject_Z n / inject_Z N.
Proof.
  intros HN. unfold p_A.
  assert (Hy : 0 < inject_Z N).
  { change 0 with (inject_Z 0). now rewrite <- Zlt_Qlt. }
  set (x := inject_Z n) in *. set (y := inject_Z N) in *.
  assert (Hden : x * (1 + 0) + y - x == y) by ring.
  exists (x * (1 + 0) / (x * (1 + 0) + y - x)). split.
  - apply np_truediv_value. rewrite Hden. lra.
  - rewrite Hden. field. lra.
Qed.

Lemma neutral_probability_witness :
  exists p,
    p_A 100 0 1 = Value p /\ p == inject_Z 1 / inject_Z 100.
Proof.
  exact (neutral_probability 100 1 eq_refl).
Defined.

End DriftExtras.

(** * Further properties of the infinite-alleles mode *)

Module MutationExtras.
Import Rng RngFacts InfiniteAlleles InfiniteAllelesFacts.

Lemma Qsquare_nonneg (a : Q) : 0 <= a * a.
Proof.
  destruct (Qlt_le_dec a 0) as [Hlt|Hge].
  - setoid_replace (a * a) with ((- a) * (- a)) by ring.
    apply Qmult_le_0_compat; lra.
  - apply Qmult_le_0_compat; lra.
Qed.

(** The loop of [get_h] adds the squares to the accumulator. *)
Lemma fold_squares (l : list Q) (a : Q) :
  fold_left (fun h p_i => h + p_i ^ 2) l a ==
  a + Qsum (map (fun p => p * p) l).
Proof.
  revert a. induction l as [|p l IH]; intros a; cbn [fold_left map].
  - unfold Qsum; cbn. ring.
  - rewrite IH. unfold Qsum; cbn [fold_right].
    change (p ^ 2) with (p * p). ring.
Qed.

Lemma Qsum_nonneg (l : list Q) :
  Forall (fun p => 0 <= p) l -> 0 <= Qsum l.
Proof.
  unfold Qsum. induction 1 as [|p l Hp _ IH]; cbn [fold_right]; lra.
Qed.

(** For non-negative numbers the sum of the squares is at most the square
    of the sum. *)
Lemma squares_le_square (l : list Q) :
  Forall (fun p => 0 <= p) l ->
  Qsum (map (fun p => p * p) l) <= Qsum l * Qsum l.
Proof.
  intros H. pose proof H as H'. induction H as [|p l Hp Hl IH].
  - cbn [map]. change (Qsum []) with 0. lra.
  - inversion H' as [|? ? _ Hl']; subst. specialize (IH Hl').
    pose proof (Qsum_nonneg l Hl') as Hs.
    change (Qsum (map (fun p => p * p) (p :: l)))
      with (p * p + Qsum (map (fun p => p * p) l)).
    change (Qsum (p :: l)) with (p + Qsum l).
    pose proof (Qmult_le_0_compat _ _ Hp Hs) as Hps.
    setoid_replace ((p + Qsum l) * (p + Qsum l))
      with (p * p + 2 * (p * Qsum l) + Qsum l * Qsum l) by ring.
    lra.
Qed.

Lemma cross_term (l : list Q) (p : Q) :
  2 * (p * Qsum l) <=
  inject_Z (Z.of_nat (length l)) * (p * p) + Qsum (map (fun q => q * q) l).
Proof.
  induction l as [|a l IH].
  - cbn [length map]. change (Qsum []) with 0.
    change (inject_Z (Z.of_nat 0)) with 0. lra.
  - change (Qsum (a :: l)) with (a + Qsum l).
    change (Qsum (map (fun q => q * q) (a :: l)))
      with (a * a + Qsum (map (fun q => q * q) l)).
    cbn [length]. rewrite Nat2Z.inj_succ. unfold Z.succ.
    rewrite inject_Z_plus. change (inject_Z 1) with 1.
    pose proof (Qsquare_nonneg (p - a)) as Hsq.
    setoid_replace ((p - a) * (p - a)) with (p * p - 2 * (p * a) + a * a)
      in Hsq by ring.
    setoid_replace (2 * (p * (a + Qsum l)))
      with (2 * (p * a) + 2 * (p * Qsum l)) by ring.
    setoid_replace ((inject_Z (Z.of_nat (length l)) + 1) * (p * p))
      with (inject_Z (Z.of_nat (length l)) * (p * p) + p * p) by ring.
    lra.
Qed.

(** The square of a sum of [n] numbers is at most [n] times the sum of
    their squares. *)
Lemma square_le_squares (l : list Q) :
  Qsum l * Qsum l <=
  inject_Z (Z.of_nat (length l)) * Qsum (map (fun p => p * p) l).
Proof.
  induction l as [|p l IH].
  - cbn [length map]. change (Qsum []) with 0.
    change (inject_Z (Z.of_nat 0)) with 0. lra.
  - change (Qsum (p :: l)) with (p + Qsum l).
    change (Qsum (map (fun q => q * q) (p :: l)))
      with (p * p + Qsum (map (fun q => q * q) l)).
    cbn [length]. rewrite Nat2Z.inj_succ. unfold Z.succ.
    rewrite inject_Z_plus. change (inject_Z 1) with 1.
    pose proof (cross_term l p) as Hc.
    set (n := inject_Z (Z.of_nat (length l))) in *.
    set (S2 := Qsum (map (fun q => q * q) l)) in *.
    setoid_replace ((p + Qsum l) * (p + Qsum l))
      with (p * p + 2 * (p * Qsum l) + Qsum l * Qsum l) by ring.
    setoid_replace ((n + 1) * (p * p + S2))
      with (n * (p * p) + p * p + n * S2 + S2) by ring.
    lra.
Qed.

(** The frequencies of positive counts: non-negative, with sum one. *)
Lemma frequencies_distribution (alleles : list Z) :
  alleles <> [] -> Forall (fun c => (0 < c)%Z) alleles ->
  exists p,
    frequencies alleles = Value p /\
    length p = length alleles /\
    Forall (fun q => 0 <= q) p /\ Qsum p == 1.
Proof.
  intros Hne Hpos.
  assert (Hsum : (0 < Zsum alleles)%Z).
  { destruct alleles as [|c l]; [congruence|].
    inversion Hpos as [|? ? Hc Hl]; subst.
    assert (Hl0 : (0 <= Zsum l)%Z).
    { clear -Hl. unfold Zsum. induction Hl; cbn; lia. }
    change (Zsum (c :: l)) with (c + Zsum l)%Z. lia. }
  exists (map (fun c => inject_Z c / inject_Z (Zsum alleles)) alleles).
  split; [apply frequencies_value; lia|].
  split; [apply length_map|].
  exact (proj2 (frequencies_args 0 alleles (Z.le_refl 0) Hpos Hsum)).
Qed.

Lemma get_h_bounds (alleles : list Z) :
  alleles <> [] -> Forall (fun c => (0 < c)%Z) alleles ->
  exists h,
    get_h alleles = Value h /\
    h <= 1 /\
    1 <= inject_Z (Z.of_nat (length alleles)) * h.
Proof.
  intros Hne Hpos.
  destruct (frequencies_distribution alleles Hne Hpos)
    as (p & Hf & Hlen & Hnn & Hone).
  unfold get_h. rewrite Hf. eexists. split; [reflexivity|].
  rewrite fold_squares.
  pose proof (squares_le_square p Hnn) as Hup.
  pose proof (square_le_squares p) as Hlow.
  rewrite Hone in Hup, Hlow. rewrite Hlen in Hlow.
  set (S2 := Qsum (map (fun q => q * q) p)) in *.
  set (n := inject_Z (Z.of_nat (length alleles))) in *.
  split; [lra|].
  setoid_replace (n * (0 + S2)) with (n * S2) by ring. lra.
Qed.

(** X17.  Homozygosity and the number of alleles: for a non-empty list of
    positive counts [get_h] returns a finite [h] with [1/n <= h <= 1],
    where [n] is the number of alleles; a single allele has [h = 1]. *)
Theorem homozygosity_bounds (alleles : list Z) :
  alleles <> [] -> Forall (fun c => (0 < c)%Z) alleles ->
  exists h,
    get_h alleles = Value h /\
    h <= 1 /\
    1 <= inject_Z (Z.of_nat (length alleles)) * h /\
    (length alleles = 1%nat -> h == 1).
Proof.
  intros Hne Hpos.
  destruct (get_h_bounds alleles Hne Hpos) as (h & Hh & Hup & Hlow).
  exists h. split; [exact Hh|]. split; [exact Hup|]. split; [exact Hlow|].
  intros Hone. rewrite Hone in Hlow. change (inject_Z (Z.of_nat 1)) with 1 in Hlow.
  lra.
Qed.

Lemma homozygosity_bounds_witness :
  exists h,
    get_h (repeat 20%Z 10) = Value h /\
    h <= 1 /\
    1 <= inject_Z (Z.of_nat (length (repeat 20%Z 10))) * h /\
    (length (repeat 20%Z 10) = 1%nat -> h == 1).
Proof.
  apply (homozygosity_bounds (repeat 20%Z 10)).
  - discriminate.
  - vm_compute. repeat constructor.
Defined.

Lemma Qsum_repeat (q : Q) (k : nat) :
  Qsum (repeat q k) == inject_Z (Z.of_nat k) * q.
Proof.
  induction k as [|k IH].
  - change (Qsum (repeat q 0)) with 0.
    change (inject_Z (Z.of_nat 0)) with 0. ring.
  - change (Qsum (repeat q (S k))) with (q + Qsum (repeat q k)).
    rewrite IH, Nat2Z.inj_succ. unfold Z.succ. rewrite inject_Z_plus.
    change (inject_Z 1) with 1. ring.
Qed.

(** X18.  Equal counts: [num >= 1] alleles that all have the same
    non-zero count [c] have homozygosity [1 / num].  The even start of the
    notebook, [allele_n = [2*N/num]*num] with [N = 100] and [num = 10], is
    the case [c = 20]. *)
Theorem equal_counts_homozygosity (c : Z) (num : nat) :
  (0 < num)%nat -> c <> 0%Z ->
  exists h,
    get_h (repeat c num) = Value h /\
    h == 1 / inject_Z (Z.of_nat num).
Proof.
  intros Hnum Hc.
  assert (Hn : ~ inject_Z (Z.of_nat num) == 0).
  { change 0 with (inject_Z 0). rewrite inject_Z_injective. lia. }
  assert (Hcq : ~ inject_Z c == 0).
  { change 0 with (inject_Z 0). now rewrite inject_Z_injective. }
  assert (Hsum : Zsum (repeat c num) <> 0%Z).
  { rewrite Zsum_repeat. intros H. apply Z.mul_eq_0 in H as [H|H]; lia. }
  unfold get_h. rewrite (frequencies_value _ Hsum).
  eexists. split; [reflexivity|].
  rewrite fold_squares, map_map, map_repeat, Qsum_repeat, Zsum_repeat.
  rewrite inject_Z_mult. field. split; assumption.
Qed.

Lemma equal_counts_homozygosity_witness :
  exists h,
    get_h (repeat 20%Z 10) = Value h /\
    h == 1 / inject_Z (Z.of_nat 10).
Proof.
  apply (equal_counts_homozygosity 20 10); [lia | discriminate].
Defined.

Lemma frequencies_length (alleles : list Z) (p : list Q) :
  frequencies alleles = Value p -> length p = length alleles.
Proof.
  unfold frequencies. destruct alleles as [|c l].
  - intros H. now injection H as <-.
  - destruct (Qeq_bool _ _); [discriminate|].
    intros H. injection H as <-. cbn [length]. now rewrite length_map.
Qed.

Lemma positive_length_le_sum (l : list Z) :
  Forall (fun c => (0 < c)%Z) l -> (Z.of_nat (length l) <= Zsum l)%Z.
Proof.
  unfold Zsum. induction 1 as [|c l Hc _ IH]; cbn [length fold_right]; lia.
Qed.

Lemma nonneg_sum_zero (l : list Z) :
  Forall (fun c => (0 <= c)%Z) l -> Zsum l = 0%Z ->
  filter (fun c => (0 <? c)%Z) l = [].
Proof.
  unfold Zsum. induction 1 as [|c l Hc Hl IH]; cbn [filter fold_right];
    [reflexivity|].
  intros Hs.
  assert (Hl0 : (0 <= fold_right Z.add 0 l)%Z)
    by (clear -Hl; induction Hl; cbn; lia).
  assert (c = 0%Z) by lia. subst c. cbn. apply IH. lia.
Qed.

(** The shape of a run of the tick. *)
Lemma tick_run_inv (N : Z) (u : Q) (allele_n : list Z)
    (tr : list draw) (new_allele_n : list Z) :
  yields (tick N u allele_n) tr new_allele_n ->
  exists k pvals m,
    tr = [DrawBinomial (2 * N) u k; DrawMultinomial (2 * N - k) pvals m] /\
    binomial_support (2 * N) u k /\
    multinomial_support (2 * N - k) pvals m /\
    length m = length allele_n /\
    new_allele_n =
      filter (fun c => (0 <? c)%Z) m ++ repeat 1%Z (Z.to_nat k).
Proof.
  intros H. destruct (frequencies allele_n) as [pvals| |e] eqn:Hf.
  - destruct (proj1 (tick_yields_iff N u allele_n pvals tr new_allele_n Hf) H)
      as (k & m & _ & Hbs & _ & Hms & Htr & Hnew).
    exists k, pvals, m. split; [exact Htr|]. split; [exact Hbs|].
    split; [exact Hms|]. split.
    + destruct Hms as (Hlen & _). rewrite Hlen.
      exact (frequencies_length allele_n pvals Hf).
    + rewrite Hnew. apply survivors_app.
  - rewrite (tick_unfold_nonfinite N u allele_n Hf) in H.
    apply yields_binomial_inv in H as (k & tr' & _ & _ & _ & H).
    now apply yields_throw_inv in H.
  - now apply frequencies_never_raises in Hf.
Qed.

(** X19.  The number of alleles after a tick from positive counts that
    sum to [2N], [N > 0]: with [k] the number of mutations drawn, it is
    at least [k], at most the number of alleles before plus [k], and
    between [1] and [2N]. *)
Theorem tick_allele_count (N : Z) (u : Q) (allele_n : list Z)
    (tr : list draw) (new_allele_n : list Z) :
  (0 < N)%Z ->
  Forall (fun c => (0 < c)%Z) allele_n ->
  Zsum allele_n = (2 * N)%Z ->
  yields (tick N u allele_n) tr new_allele_n ->
  exists k pvals m,
    tr = [DrawBinomial (2 * N) u k; DrawMultinomial (2 * N - k) pvals m] /\
    (Z.to_nat k <= length new_allele_n)%nat /\
    (length new_allele_n <= length allele_n + Z.to_nat k)%nat /\
    (1 <= length new_allele_n)%nat /\
    (Z.of_nat (length new_allele_n) <= 2 * N)%Z.
Proof.
  intros HN _ _ H.
  destruct (tick_total N u allele_n tr new_allele_n H) as [Hsum Hpos].
  destruct (tick_run_inv N u allele_n tr new_allele_n H)
    as (k & pvals & m & Htr & _ & _ & Hlen & Hnew).
  exists k, pvals, m. split; [exact Htr|].
  pose proof (positive_length_le_sum new_allele_n Hpos) as Hle.
  pose proof (filter_length_le (fun c => (0 <? c)%Z) m) as Hfl.
  assert (Hl : length new_allele_n =
               (length (filter (fun c => (0 <? c)%Z) m) + Z.to_nat k)%nat)
    by (rewrite Hnew, length_app, repeat_length; reflexivity).
  assert (Hone : (1 <= length new_allele_n)%nat).
  { destruct new_allele_n as [|c l]; [|cbn [length]; lia].
    exfalso. change (Zsum []) with 0%Z in Hsum. lia. }
  split; [lia|]. split; [lia|]. split; [exact Hone|]. lia.
Qed.

Lemma tick_allele_count_witness :
  yields (tick 1 (1 # 2) [2%Z])
    [DrawBinomial (2 * 1) (1 # 2) 1;
     DrawMultinomial (2 * 1 - 1)
       (map (fun c => inject_Z c / inject_Z (Zsum [2%Z])) [2%Z]) [1%Z]]
    [1%Z; 1%Z] /\
  exists k pvals m,
    [DrawBinomial (2 * 1) (1 # 2) 1;
     DrawMultinomial (2 * 1 - 1)
       (map (fun c => inject_Z c / inject_Z (Zsum [2%Z])) [2%Z]) [1%Z]]
    = [DrawBinomial (2 * 1) (1 # 2) k; DrawMultinomial (2 * 1 - k) pvals m] /\
    (Z.to_nat k <= length [1%Z; 1%Z])%nat /\
    (length [1%Z; 1%Z] <= length [2%Z] + Z.to_nat k)%nat /\
    (1 <= length [1%Z; 1%Z])%nat /\
    (Z.of_nat (length [1%Z; 1%Z]) <= 2 * 1)%Z.
Proof.
  assert (H : yields (tick 1 (1 # 2) [2%Z])
    [DrawBinomial (2 * 1) (1 # 2) 1;
     DrawMultinomial (2 * 1 - 1)
       (map (fun c => inject_Z c / inject_Z (Zsum [2%Z])) [2%Z]) [1%Z]]
    [1%Z; 1%Z]).
  { apply (tick_yields_iff 1 (1 # 2) [2%Z] _ _ _ eq_refl).
    exists 1%Z, [1%Z].
    repeat (split || apply Forall_cons || apply Forall_nil
            || apply Forall2_cons || apply Forall2_nil);
      vm_compute; try discriminate; intros H; discriminate H. }
  split; [exact H|].
  apply (tick_allele_count 1 (1 # 2) [2%Z] _ _ eq_refl); [|reflexivity|exact H].
  repeat constructor.
Defined.

(** X20.  Without mutation ([u = 0]) no allele is added: from positive
    counts that sum to [2N] the tick has a run, and after every run the
    number of alleles is at most what it was; a population with a single
    allele keeps that allele, with count [2N]. *)
Theorem no_mutation_no_new_allele (N : Z) (u : Q) (allele_n : list Z) :
  (0 < N)%Z -> u == 0 ->
  Forall (fun c => (0 < c)%Z) allele_n ->
  Zsum allele_n = (2 * N)%Z ->
  (exists tr new_allele_n, yields (tick N u allele_n) tr new_allele_n) /\
  (forall tr new_allele_n,
     yields (tick N u allele_n) tr new_allele_n ->
     (length new_allele_n <= length allele_n)%nat /\
     (length allele_n = 1%nat -> new_allele_n = [(2 * N)%Z])).
Proof.
  intros HN Hu Hpos Hsum. split.
  - apply (tick_run N u allele_n HN); try assumption; lra.
  - intros tr new H.
    destruct (tick_run_inv N u allele_n tr new H)
      as (k & pvals & m & _ & (_ & Hk0 & _) & (_ & Hm0 & Hms & _) & Hlen & Hnew).
    specialize (Hk0 Hu). subst k. cbn [Z.to_nat repeat] in Hnew.
    rewrite app_nil_r in Hnew. split.
    + rewrite Hnew, <- Hlen. apply filter_length_le.
    + intros Hone. rewrite Hone in Hlen.
      destruct m as [|c [|c' m']]; try discriminate.
      unfold Zsum in Hms; cbn [fold_right] in Hms.
      assert (c = (2 * N)%Z) by lia. subst c.
      rewrite Hnew. cbn [filter].
      destruct (Z.ltb_spec 0 (2 * N)); [reflexivity | lia].
Qed.

Lemma no_mutation_no_new_allele_witness :
  (exists tr new_allele_n, yields (tick 100 0 [200%Z]) tr new_allele_n) /\
  (forall tr new_allele_n,
     yields (tick 100 0 [200%Z]) tr new_allele_n ->
     (length new_allele_n <= length [200%Z])%nat /\
     (length [200%Z] = 1%nat -> new_allele_n = [(2 * 100)%Z])).
Proof.
  apply (no_mutation_no_new_allele 100 0 [200%Z]).
  - reflexivity.
  - reflexivity.
  - repeat constructor.
  - reflexivity.
Defined.

(** X21.  With [u = 1] every individual is a new mutant: from positive
    counts that sum to [2N] the tick has a run, and every run leaves
    [2N] alleles of one copy each, whatever the alleles were before. *)
Theorem all_mutants (N : Z) (u : Q) (allele_n : list Z) :
  (0 < N)%Z -> u == 1 ->
  Forall (fun c => (0 < c)%Z) allele_n ->
  Zsum allele_n = (2 * N)%Z ->
  (exists tr new_allele_n, yields (tick N u allele_n) tr new_allele_n) /\
  (forall tr new_allele_n,
     yields (tick N u allele_n) tr new_allele_n ->
     new_allele_n = repeat 1%Z (Z.to_nat (2 * N))).
Proof.
  intros HN Hu Hpos Hsum. split.
  - apply (tick_run N u allele_n HN); try assumption; lra.
  - intros tr new H.
    destruct (tick_run_inv N u allele_n tr new H)
      as (k & pvals & m & _ & (_ & _ & Hk1) & (_ & Hm0 & Hms & _) & _ & Hnew).
    specialize (Hk1 Hu). subst k.
    rewrite Z.sub_diag in Hms.
    now rewrite Hnew, (nonneg_sum_zero m Hm0 Hms).
Qed.

Lemma all_mutants_witness :
  (exists tr new_allele_n, yields (tick 100 1 [200%Z]) tr new_allele_n) /\
  (forall tr new_allele_n,
     yields (tick 100 1 [200%Z]) tr new_allele_n ->
     new_allele_n = repeat 1%Z (Z.to_nat (2 * 100))).
Proof.
  apply (all_mutants 100 1 [200%Z]).
  - reflexivity.
  - reflexivity.
  - repeat constructor.
  - reflexivity.
Defined.

(** X22.  What the generation loop records: started from positive counts
    that sum to [2N] (with [N > 0]), every run records [n_g] generations,
    each with a number of alleles [n] between [1] and [2N] and a finite
    homozygosity [h] with [1/n <= h <= 1], and ends in positive counts
    that again sum to [2N]. *)
Theorem simulate_records (N : Z) (u : Q) :
  (0 < N)%Z ->
  forall (n_g : nat) (allele_n : list Z) (tr : list draw)
         (hist : list (outcome Q * Z)) (final : list Z),
    Forall (fun c => (0 < c)%Z) allele_n ->
    Zsum allele_n = (2 * N)%Z ->
    yields (simulate n_g N u allele_n) tr (hist, final) ->
    length hist = n_g /\
    Forall (fun rec =>
              (1 <= snd rec <= 2 * N)%Z /\
              exists h, fst rec = Value h /\
                        h <= 1 /\ 1 <= inject_Z (snd rec) * h) hist /\
    Forall (fun c => (0 < c)%Z) final /\
    Zsum final = (2 * N)%Z.
Proof.
  intros HN. induction n_g as [|n_g IH];
    intros allele_n tr hist final Hpos Hsum H; cbn [simulate] in H.
  - apply yields_ret_inv in H as [_ H]. injection H as -> ->.
    repeat split; try constructor; assumption.
  - apply yields_bind_inv in H as (tr1 & tr' & new & -> & Htick & H).
    apply yields_bind_inv in H as (tr2 & tr3 & [hist' final'] & -> & Hrest & H).
    apply yields_ret_inv in H as [_ H]. cbn [fst snd] in H.
    injection H as Hh Hf. subst hist final'.
    destruct (tick_total N u allele_n tr1 new Htick) as [Hsum' Hpos'].
    destruct (IH new tr2 hist' final Hpos' Hsum' Hrest)
      as (Hlen & Hall & Hfpos & Hfsum).
    assert (Hne : allele_n <> []).
    { intros ->. change (Zsum []) with 0%Z in Hsum. lia. }
    destruct (get_h_bounds allele_n Hne Hpos) as (h & Hh & Hup & Hlow).
    pose proof (positive_length_le_sum allele_n Hpos) as Hle.
    split; [cbn [length]; now rewrite Hlen|].
    split; [|split; assumption].
    constructor; [|exact Hall]. cbn [fst snd]. split.
    + destruct allele_n; [congruence|]. cbn [length] in *. lia.
    + exists h. auto.
Qed.

Lemma simulate_records_witness :
  yields (simulate 1 1 (1 # 2) [2%Z])
    [DrawBinomial (2 * 1) (1 # 2) 1;
     DrawMultinomial (2 * 1 - 1)
       (map (fun c => inject_Z c / inject_Z (Zsum [2%Z])) [2%Z]) [1%Z]]
    ([(get_h [2%Z], 1%Z)], [1%Z; 1%Z]) /\
  length [(get_h [2%Z], 1%Z)] = 1%nat /\
  Forall (fun rec =>
            (1 <= snd rec <= 2 * 1)%Z /\
            exists h, fst rec = Value h /\
                      h <= 1 /\ 1 <= inject_Z (snd rec) * h)
    [(get_h [2%Z], 1%Z)] /\
  Forall (fun c => (0 < c)%Z) [1%Z; 1%Z] /\
  Zsum [1%Z; 1%Z] = (2 * 1)%Z.
Proof.
  assert (H : yields (simulate 1 1 (1 # 2) [2%Z])
    [DrawBinomial (2 * 1) (1 # 2) 1;
     DrawMultinomial (2 * 1 - 1)
       (map (fun c => inject_Z c / inject_Z (Zsum [2%Z])) [2%Z]) [1%Z]]
    ([(get_h [2%Z], 1%Z)], [1%Z; 1%Z])).
  { apply yields_binomial;
      [repeat split; vm_compute; discriminate
      |repeat split; try (vm_compute; discriminate);
       intros H; vm_compute in H; discriminate H|].
    apply yields_multinomial;
      [repeat (split || apply Forall_cons || apply Forall_nil);
       vm_compute; try discriminate; reflexivity
      |repeat (split || apply Forall_cons || apply Forall_nil
               || apply Forall2_cons || apply Forall2_nil);
       vm_compute; try discriminate; intros H; discriminate H|].
    apply yields_ret. }
  split; [exact H|].
  assert (Hpos : Forall (fun c => (0 < c)%Z) [2%Z]) by (repeat constructor).
  exact (simulate_records 1 (1 # 2) eq_refl 1 [2%Z] _ _ _ Hpos eq_refl H).
Defined.

End MutationExtras.

(** * The simulation of lecture 03 *)

Module Lecture03Facts.
Import Lecture03 Lecture03Run.

Section MeanFitness.

(** The notebook leaves the average fitness to the student.  The text of
    the notebook defines it as the sum of [p_G * w_G] and sets the
    wild-type fitness to [1]; what follows holds for every completion of
    [FILL IN] that computes this value. *)
Variable fill_in : Q -> Q -> Q.
Hypothesis fill_in_mean :
  forall p w : Q, fill_in p w == w * p + 1 * (1 - p).

Lemma mean_fitness_positive (p w : Q) :
  0 <= p -> p <= 1 -> 0 < w -> 0 < w * p + 1 * (1 - p).
Proof.
  intros Hp0 Hp1 Hw.
  assert (0 <= w * p) by (apply Qmult_le_0_compat; lra).
  destruct (Qlt_le_dec p 1) as [Hlt|Hge]; [lra|].
  assert (Hp : p == 1) by lra. rewrite Hp. lra.
Qed.

Lemma evolve_step (p w : Q) :
  0 <= p -> p <= 1 -> 0 < w ->
  exists p',
    evolve fill_in p w = Value p' /\
    0 <= p' /\ p' <= 1 /\
    p' * (1 - p) == w * p * (1 - p') /\
    (w == 1 -> p' == p) /\ (w <= 1 -> p' <= p) /\ (1 <= w -> p <= p').
Proof.
  intros Hp0 Hp1 Hw.
  pose proof (mean_fitness_positive p w Hp0 Hp1 Hw) as Hd.
  assert (Hfd : 0 < fill_in p w) by (rewrite fill_in_mean; exact Hd).
  exists (w * p / fill_in p w).
  split; [unfold evolve; apply py_truediv_value; lra|].
  assert (Hwp : 0 <= w * p) by (apply Qmult_le_0_compat; lra).
  assert (Hf : 0 <= p * (1 - p) / fill_in p w).
  { apply Qle_shift_div_l; [exact Hfd|].
    setoid_replace (0 * fill_in p w) with 0 by ring.
    apply Qmult_le_0_compat; lra. }
  assert (Hdiff : w * p / fill_in p w - p ==
                  (w - 1) * (p * (1 - p) / fill_in p w)).
  { rewrite !fill_in_mean. field. lra. }
  set (f := p * (1 - p) / fill_in p w) in *.
  split; [apply Qle_shift_div_l; lra|].
  split; [apply Qle_shift_div_r; [exact Hfd|]; rewrite fill_in_mean; lra|].
  split.
  - rewrite !fill_in_mean. field. lra.
  - split; [|split].
    + intros H1. assert (Hz : (w - 1) * f == 0) by (rewrite H1; ring). lra.
    + intros H1.
      assert (0 <= (1 - w) * f) by (apply Qmult_le_0_compat; lra).
      assert (Hopp : (1 - w) * f == - ((w - 1) * f)) by ring. lra.
    + intros H1.
      assert (0 <= (w - 1) * f) by (apply Qmult_le_0_compat; lra). lra.
Qed.

(** X23.  One generation of [evolve] with the mean fitness filled in,
    for a frequency [0 <= p <= 1] and a fitness [w > 0]: the new
    frequency [p'] is again in [[0, 1]], its odds are [w] times the old
    odds ([p' * (1 - p) = w * p * (1 - p')]), and it is equal to, at most
    or at least [p] according to whether [w] is equal to, at most or at
    least [1]. *)
Theorem evolve_with_mean_fitness (p w : Q) :
  0 <= p -> p <= 1 -> 0 < w ->
  exists p',
    evolve fill_in p w = Value p' /\
    0 <= p' /\ p' <= 1 /\
    p' * (1 - p) == w * p * (1 - p') /\
    (w == 1 -> p' == p) /\ (w <= 1 -> p' <= p) /\ (1 <= w -> p <= p').
Proof. exact (evolve_step p w). Qed.

Lemma appended_series (w : Q) :
  0 < w ->
  forall (steps : nat) (p : Q),
    0 <= p -> p <= 1 ->
    exists l,
      appended fill_in steps p w = Value l /\
      length l = steps /\
      Forall (fun x => 0 <= x /\ x <= 1 # 2) l /\
      (w == 1 -> Forall (fun x => x == p / 2) l) /\
      (w <= 1 -> Sorted (fun a b => b <= a) (p / 2 :: l)) /\
      (1 <= w -> Sorted (fun a b => a <= b) (p / 2 :: l)).
Proof.
  intros Hw. induction steps as [|steps IH]; intros p Hp0 Hp1;
    cbn [appended].
  - exists []. repeat split; constructor; constructor.
  - destruct (evolve_step p w Hp0 Hp1 Hw)
      as (p' & Hp' & Hq0 & Hq1 & _ & Heq & Hle & Hge).
    rewrite Hp'.
    destruct (IH p' Hq0 Hq1) as (l & Hl & Hlen & Hrange & Hconst & Hdec & Hinc).
    rewrite Hl. exists (p' / 2 :: l).
    assert (Hhalf : forall x, x / 2 == x * (1 # 2)) by (intros x; field).
    split; [reflexivity|]. split; [cbn [length]; now rewrite Hlen|].
    split; [|split; [|split]].
    + constructor; [|exact Hrange]. rewrite (Hhalf p'). split; lra.
    + intros H1. constructor.
      * rewrite (Hhalf p'), (Hhalf p), (Heq H1). reflexivity.
      * eapply Forall_impl; [|exact (Hconst H1)]. cbn.
        intros x Hx. rewrite Hx, (Hhalf p'), (Hhalf p), (Heq H1).
        reflexivity.
    + intros H1. constructor; [exact (Hdec H1)|]. constructor.
      rewrite (Hhalf p'), (Hhalf p). specialize (Hle H1). lra.
    + intros H1. constructor; [exact (Hinc H1)|]. constructor.
      rewrite (Hhalf p'), (Hhalf p). specialize (Hge H1). lra.
Qed.

(** X24.  The simulated series of lecture 03, with the mean fitness filled
    in, a starting heterozygote frequency [0 <= p <= 1], a fitness
    [w > 0] and [len(year) >= 1]: the cell returns one allele frequency
    per year, starting with [p / 2], each within [[0, 1/2]]; the series is
    constant for [w = 1], non-increasing for [w <= 1] and non-decreasing
    for [w >= 1]. *)
Theorem freq_sim_series (len_year : nat) (p w : Q) :
  (1 <= len_year)%nat -> 0 <= p -> p <= 1 -> 0 < w ->
  exists l,
    freq_sim fill_in len_year p w = Value (p / 2 :: l) /\
    length (p / 2 :: l) = len_year /\
    Forall (fun x => 0 <= x /\ x <= 1 # 2) (p / 2 :: l) /\
    (w == 1 -> Forall (fun x => x == p / 2) (p / 2 :: l)) /\
    (w <= 1 -> Sorted (fun a b => b <= a) (p / 2 :: l)) /\
    (1 <= w -> Sorted (fun a b => a <= b) (p / 2 :: l)).
Proof.
  intros Hlen Hp0 Hp1 Hw.
  destruct (appended_series w Hw (len_year - 1) p Hp0 Hp1)
    as (l & Hl & Hll & Hrange & Hconst & Hdec & Hinc).
  exists l. unfold freq_sim. rewrite Hl.
  assert (Hhalf : p / 2 == p * (1 # 2)) by field.
  split; [reflexivity|]. split; [cbn [length]; lia|].
  split; [constructor; [rewrite Hhalf; split; lra | exact Hrange]|].
  split; [|split; assumption].
  intros H1. constructor; [reflexivity | exact (Hconst H1)].
Qed.

End MeanFitness.

Lemma evolve_with_mean_fitness_witness :
  exists p',
    evolve (fun p w => w * p + 1 * (1 - p)) (1 # 5) (9 # 10) = Value p' /\
    0 <= p' /\ p' <= 1 /\
    p' * (1 - (1 # 5)) == (9 # 10) * (1 # 5) * (1 - p') /\
    ((9 # 10) == 1 -> p' == 1 # 5) /\
    ((9 # 10) <= 1 -> p' <= 1 # 5) /\ (1 <= 9 # 10 -> (1 # 5) <= p').
Proof.
  apply (evolve_with_mean_fitness (fun p w => w * p + 1 * (1 - p))).
  - intros p w. reflexivity.
  - vm_compute; discriminate.
  - vm_compute; discriminate.
  - reflexivity.
Defined.

Lemma freq_sim_series_witness :
  exists l,
    freq_sim (fun p w => w * p + 1 * (1 - p)) 22 (1 # 5) 1
      = Value ((1 # 5) / 2 :: l) /\
    length ((1 # 5) / 2 :: l) = 22%nat /\
    Forall (fun x => 0 <= x /\ x <= 1 # 2) ((1 # 5) / 2 :: l) /\
    (1 == 1 -> Forall (fun x => x == (1 # 5) / 2) ((1 # 5) / 2 :: l)) /\
    (1 <= 1 -> Sorted (fun a b => b <= a) ((1 # 5) / 2 :: l)) /\
    (1 <= 1 -> Sorted (fun a b => a <= b) ((1 # 5) / 2 :: l)).
Proof.
  apply (freq_sim_series (fun p w => w * p + 1 * (1 - p))).
  - intros p w. reflexivity.
  - lia.
  - vm_compute; discriminate.
  - vm_compute; discriminate.
  - reflexivity.
Defined.

End Lecture03Facts.
